(** * express-idempotency: the idempotent-response gate

    A shallow embedding of [src/index.js] and of the single-backend
    variant of the same middleware, with the properties of the capture /
    replay protocol.

    The file is laid out as follows:
    - the bounded local store behind [./lib/cache-provider] (module [LRU]);
    - requests, response objects, the world, the four middlewares, the
      [connect] chain and the constructor;
    - the downstream pipeline and several requests in flight over one
      shared store;
    - properties of the store, of one request, and of overlapping
      requests, each followed further down by a run on sample requests.

    Conventions. The request and the response are objects that the
    middlewares, their listeners and the downstream pipeline share: a
    listener registered with [res.once] is kept as data ([Listener]) and
    reads the request and the response as they are when 'end' is
    emitted, after the pipeline has worked on them. Of the response
    object the development keeps the three properties the listener
    reads and the calls the gate makes on it ([res.status], [res.set],
    [res.send]); what the framework puts on the wire for those calls is
    outside it. Calls to [debug] only write diagnostics and are left
    out. *)

From stdpp Require Import base option strings pretty gmap list sorting.
From Stdlib Require Import ZArith Lia.

(** The key under which a response is recorded. *)
Abbreviation CacheKey := string (only parsing).

(* ===================================================================== *)
(** ** The bounded local store *)
(* ===================================================================== *)

Module LRU.
Section Store.
Context {V : Type}.

(** One cached item. [inserted] is the tick at which the item was
    stored, [looked] the tick of the last successful lookup, if any. *)
Record entry := Entry {
  ekey     : CacheKey;
  evalue   : V;
  inserted : nat;
  looked   : option nat
}.

(** "least recently looked-up (or inserted if never looked up)" *)
Definition recency (e : entry) : nat := default (inserted e) (looked e).

(** Modelled from the spec: [./lib/cache-provider] is not part of the
    sources at hand. Section 4.3 describes it as an in-memory, fixed
    capacity, recency-ordered structure with strict LRU eviction and no
    TTL by default. [entries] is kept most recently used first; [clock]
    is a logical clock that stamps insertions and lookups. *)
Record t := Cache {
  capacity : nat;
  clock    : nat;
  entries  : list entry
}.

Definition empty (N : nat) : t := Cache N 0 [].

Definition size (c : t) : nat := length (entries c).

Definition keys (c : t) : list CacheKey := ekey <$> entries c.

Fixpoint lookup_entry (k : CacheKey) (es : list entry) : option entry :=
  match es with
  | [] => None
  | e :: es' => if decide (ekey e = k) then Some e else lookup_entry k es'
  end.

Definition without (k : CacheKey) (es : list entry) : list entry :=
  filter (λ e, ekey e ≠ k) es.

Definition touch (now : nat) (e : entry) : entry :=
  Entry (ekey e) (evalue e) (inserted e) (Some now).

(** Content of the store at [k], without any bookkeeping. *)
Definition peek (k : CacheKey) (c : t) : option V :=
  evalue <$> lookup_entry k (entries c).

(** Modelled from the spec: [lookup(key)] of section 4.2 on the store of
    section 4.3. A found entry becomes the most recently used one; a
    lookup that finds nothing changes nothing. *)
Definition get (k : CacheKey) (c : t) : option V * t :=
  match lookup_entry k (entries c) with
  | None => (None, c)
  | Some e =>
      (Some (evalue e),
       Cache (capacity c) (S (clock c))
             (touch (clock c) e :: without k (entries c)))
  end.

(** Modelled from the spec: [store(key, response)] of section 4.2 on the
    store of section 4.3. Last write wins; the new entry is the most
    recently used one and whatever no longer fits is dropped from the
    least recently used end. *)
Definition set (k : CacheKey) (v : V) (c : t) : t :=
  Cache (capacity c) (S (clock c))
        (take (capacity c) (Entry k v (clock c) None :: without k (entries c))).

Inductive op := Lookup (k : CacheKey) | Store (k : CacheKey) (v : V).

Definition apply (c : t) (o : op) : t :=
  match o with
  | Lookup k => (get k c).2
  | Store k v => set k v c
  end.

Definition run (ops : list op) (c : t) : t := foldl apply c ops.

(** The history of a store is the list of operations run on it. The
    position (counted from 1) of the last operation in [ops] that
    satisfies [P], or 0 when there is none. *)
Fixpoint last_pos (P : op → bool) (ops : list op) : nat :=
  match ops with
  | [] => 0
  | o :: ops' =>
      match last_pos P ops' with
      | 0 => if P o then 1 else 0
      | S n => S (S n)
      end
  end.

Definition is_lookup_of (k : CacheKey) (o : op) : bool :=
  match o with Lookup k' => bool_decide (k' = k) | Store _ _ => false end.

Definition is_store_of (k : CacheKey) (o : op) : bool :=
  match o with Store k' _ => bool_decide (k' = k) | Lookup _ => false end.

(** When [k] was last looked up, and when it was last stored. *)
Definition last_lookup (ops : list op) (k : CacheKey) : nat :=
  last_pos (is_lookup_of k) ops.

Definition last_store (ops : list op) (k : CacheKey) : nat :=
  last_pos (is_store_of k) ops.

(** "least recently looked-up (or inserted if never looked up)": the
    last time [k] was looked up or stored. *)
Definition last_access (ops : list op) (k : CacheKey) : nat :=
  last_lookup ops k `max` last_store ops k.

(** Representation invariant. *)
Record wf (c : t) : Prop := Wf {
  wf_size   : size c ≤ capacity c;
  wf_nodup  : NoDup (keys c);
  wf_sorted : StronglySorted (λ a b, recency b < recency a) (entries c);
  wf_clock  : Forall (λ e, recency e < clock c) (entries c)
}.

End Store.
Arguments entry : clear implicits.
Arguments t : clear implicits.
Arguments op : clear implicits.
End LRU.

(* ===================================================================== *)
(** ** Requests, responses and the world the gate runs in *)
(* ===================================================================== *)

Local Open Scope string_scope.

(** The request object. [req_headers] is the header table that
    [req.get(name)] reads. *)
Record Request := mkRequest {
  method      : string;
  path        : string;
  req_headers : gmap string string;
  req_body    : string
}.

(** [req.get(name)]: the header value, or [undefined]. *)
Definition req_get (req : Request) (name : string) : option string :=
  req_headers req !! name.

(** The object literal [{ statusCode, body, headers }] that the store
    listener builds and the check middleware reads back. A property that
    is [undefined] on the response object is [None]. *)
Record Response := mkResponse {
  statusCode : Z;
  body       : option string;
  headers    : option (gmap string string)
}.

(** What the code does to the stores, in program order. *)
Inductive Event :=
| KeyGenerated (req : Request) (token : string)
| CacheGet (k : CacheKey)
| CacheSet (k : CacheKey) (v : Response)
| RemoteGet (k : CacheKey)
| RemoteSet (k : CacheKey) (v : Response).

(** Module-level state: the shared local cache of [./lib/cache-provider],
    the state of the remote key-value service, and the trace. *)
Record World := mkWorld {
  cache  : LRU.t Response;
  remote : gmap string Response;
  log    : list Event
}.

Inductive Error :=
| TypeError (message : string)
| ReplyError (message : string).

(** How a call ends: it returns, or it throws (for an [async] function:
    the promise it returned is rejected). *)
Inductive Completion (A : Type) :=
| Return (a : A)
| Throw (e : Error).
Arguments Return {A} a.
Arguments Throw {A} e.

(** Computations over the world that may throw. *)
Definition M (A : Type) : Type := World → Completion A * World.

Definition ret {A} (a : A) : M A := λ w, (Return a, w).

Definition bind {A B} (m : M A) (k : A → M B) : M B :=
  λ w, match m w with
       | (Return a, w') => k a w'
       | (Throw e, w') => (Throw e, w')
       end.

Notation "'let!' x ':=' m 'in' k" := (bind m (λ x, k))
  (at level 10, x pattern, m at level 100, k at level 200).
Notation "'do!' m 'in' k" := (bind m (λ _, k))
  (at level 10, m at level 100, k at level 200).

Definition emit (ev : Event) : M unit :=
  λ w, (Return tt, mkWorld (cache w) (remote w) (log w ++ [ev])%list).

(** [cache.get(key)] *)
Definition cache_get (k : CacheKey) : M (option Response) :=
  λ w, let '(v, c) := LRU.get k (cache w) in
       (Return v, mkWorld c (remote w) (log w ++ [CacheGet k])%list).

(** [cache.set(key, value)] *)
Definition cache_set (k : CacheKey) (v : Response) : M unit :=
  λ w, (Return tt,
        mkWorld (LRU.set k v (cache w)) (remote w) (log w ++ [CacheSet k v])%list).

(** The extra argument the code hands to every client call. *)
Inductive Callback := redis_print.

(** The Redis client after [promisifyAll]: [client.getAsync(key, cb)]
    and [client.setAsync(key, value, cb)]. What they do is the client's
    business: each is any computation over the world, and may reject. *)
Record Client := mkClient {
  getAsync : CacheKey → Callback → M (option Response);
  setAsync : CacheKey → Response → Callback → M unit
}.

(** A client whose service is unreachable: every operation rejects. *)
Definition redis_down : Client :=
  {| getAsync := λ k cb w, (Throw (ReplyError "connection refused"), w);
     setAsync := λ k v cb w, (Throw (ReplyError "connection refused"), w) |}.

(** A client whose lookups find nothing and whose writes are rejected. *)
Definition redis_write_refused : Client :=
  {| getAsync := λ k cb w, (Return None, w);
     setAsync := λ k v cb w, (Throw (ReplyError "write refused"), w) |}.

(** The closures handed to [res.once('end', ...)]. Each refers to the
    request and the response it was registered for, and reads them when
    it runs. *)
Inductive Listener :=
| StoreInLRU
| StoreInRedis (client : Client).

(** A call of [res.set]. *)
Inductive HeaderCall :=
| SetAll (obj : option (gmap string string))
| SetOne (field value : string).

(** The response object. The first three fields are the properties the
    store listener reads ([res.statusCode], [res.body], [res.headers]).
    [header_calls] lists the calls of [res.set] the gate has made on the
    object, oldest first, and [sent_body] is the argument of the gate's
    [res.send], once it has sent. [end_patched] tells whether
    [express-end] wrapped [res.end]; [on_end] holds the one-shot 'end'
    listeners. *)
Record Res := mkRes {
  res_statusCode : Z;
  res_body       : option string;
  res_headers    : option (gmap string string);
  header_calls   : list HeaderCall;
  sent_body      : option (option string);
  end_patched    : bool;
  on_end         : list Listener
}.

Definition fresh_res : Res :=
  mkRes 200 None None [] None false [].

(** The properties of [res] the capture reads. *)
Definition captured (res : Res) : Response :=
  {| statusCode := res_statusCode res;
     body       := res_body res;
     headers    := res_headers res |}.

(** [./lib/generate-cache-key] is not among the sources at hand; the gate
    is defined for any key generator. *)
Class KeyGenerator := generateCacheKey : Request → string → CacheKey.

(** Modelled from the spec: the key generator of section 4.1, "concatenate
    method, a normalized path, and the token", here with every component
    prefixed by its length so that no delimiter can be ambiguous. *)
Definition compositeKey : KeyGenerator :=
  λ req token,
    let part (s : string) := pretty (String.length s) +:+ ":" +:+ s in
    part (method req) +:+ part (path req) +:+ part token.


(* ===================================================================== *)
(** ** The response object's methods *)
(* ===================================================================== *)

(** [res.status(code)]: sets [res.statusCode]. *)
Definition res_status (code : Z) (res : Res) : Res :=
  mkRes code (res_body res) (res_headers res)
        (header_calls res) (sent_body res) (end_patched res) (on_end res).

(** [res.set(obj)] *)
Definition res_set_all (obj : option (gmap string string)) (res : Res) : Res :=
  mkRes (res_statusCode res) (res_body res) (res_headers res)
        (header_calls res ++ [SetAll obj])%list
        (sent_body res) (end_patched res) (on_end res).

(** [res.set(field, value)] *)
Definition res_set (field value : string) (res : Res) : Res :=
  mkRes (res_statusCode res) (res_body res) (res_headers res)
        (header_calls res ++ [SetOne field value])%list
        (sent_body res) (end_patched res) (on_end res).

(** [res.once('end', listener)] *)
Definition res_once_end (l : Listener) (res : Res) : Res :=
  mkRes (res_statusCode res) (res_body res) (res_headers res)
        (header_calls res) (sent_body res) (end_patched res)
        (on_end res ++ [l])%list.

(** [generateCacheKey(req, idempotencyKey)], traced. *)
Definition generate {KG : KeyGenerator} (req : Request) (token : string) : M CacheKey :=
  do! emit (KeyGenerated req token) in
  ret (generateCacheKey req token).

(** The listener of [storeInLRUCacheMw] (and of [storeMw]), run when
    'end' fires on [res]; [req] and [res] are the two objects as they
    are at that moment. *)
Definition storeInLRU_listener {KG : KeyGenerator} (req : Request) (res : Res) : M unit :=
  match req_get req "Idempotency-Key" with
  | Some (String _ _ as idempotencyKey) =>
      let responseToStore :=
        {| statusCode := res_statusCode res;
           body       := res_body res;
           headers    := res_headers res |} in
      let! cacheKey := generate req idempotencyKey in
      cache_set cacheKey responseToStore
  | _ => ret tt
  end.

(** The [async] listener of [storeInRedisMw]. *)
Definition storeInRedis_listener {KG : KeyGenerator}
    (client : Client) (req : Request) (res : Res) : M unit :=
  match req_get req "Idempotency-Key" with
  | Some (String _ _ as idempotencyKey) =>
      let responseToStore :=
        {| statusCode := res_statusCode res;
           body       := res_body res;
           headers    := res_headers res |} in
      let! cacheKey := generate req idempotencyKey in
      do! emit (RemoteSet cacheKey responseToStore) in
      setAsync client cacheKey responseToStore redis_print
  | _ => ret tt
  end.

(** The emitter drops the promise an [async] listener returns: when the
    promise is rejected nobody handles it, and the emitter carries on. *)
Definition detached {A} (m : M A) : M unit :=
  λ w, (Return tt, (m w).2).

Definition run_listener {KG : KeyGenerator}
    (l : Listener) (req : Request) (res : Res) : M unit :=
  match l with
  | StoreInLRU => storeInLRU_listener req res
  | StoreInRedis client => detached (storeInRedis_listener client req res)
  end.

Fixpoint run_listeners {KG : KeyGenerator}
    (ls : list Listener) (req : Request) (res : Res) : M unit :=
  match ls with
  | [] => ret tt
  | l :: ls' => do! run_listener l req res in run_listeners ls' req res
  end.

(** [res.emit('end')]: one-shot listeners are removed, then called. *)
Definition emit_end {KG : KeyGenerator} (req : Request) (res : Res) : M Res :=
  let res' := mkRes (res_statusCode res) (res_body res) (res_headers res)
                    (header_calls res) (sent_body res) (end_patched res) [] in
  do! run_listeners (on_end res) req res' in
  ret res'.

(** [res.end()], which [express-end] wraps so that 'end' is emitted. *)
Definition res_end {KG : KeyGenerator} (req : Request) (res : Res) : M Res :=
  if end_patched res then emit_end req res else ret res.

(** [res.send(body)], called by the gate: the argument is noted and the
    response ends. *)
Definition res_send {KG : KeyGenerator}
    (req : Request) (payload : option string) (res : Res) : M Res :=
  res_end req (mkRes (res_statusCode res) (res_body res) (res_headers res)
                     (header_calls res) (Some payload) (end_patched res)
                     (on_end res)).

(* ===================================================================== *)
(** ** The middlewares of [src/index.js] *)
(* ===================================================================== *)

(** Whether a middleware called [next()]. *)
Inductive Flow := NextCalled | NotCalled.

Definition Middleware : Type := Request → Res → M (Flow * Res).

Definition next (res : Res) : M (Flow * Res) := ret (NextCalled, res).

(** The [express-end] middleware: wraps [res.end], then [next()]. *)
Definition expressEnd : Middleware :=
  λ req res,
    next (mkRes (res_statusCode res) (res_body res) (res_headers res)
                (header_calls res) (sent_body res) true (on_end res)).

Definition checkInLRUCacheMw {KG : KeyGenerator} : Middleware :=
  λ req res,
    match req_get req "Idempotency-Key" with
    | Some (String _ _ as idempotencyKey) =>
        let! cacheKey := generate req idempotencyKey in
        let! storedResponse := cache_get cacheKey in
        match storedResponse with
        | None => next res
        | Some storedResponse =>
            let res := res_status (statusCode storedResponse) res in
            let res := res_set_all (headers storedResponse) res in
            let res := res_set "X-Cache" "HIT" res in
            let! res := res_send req (body storedResponse) res in
            ret (NotCalled, res)
        end
    | _ => next res
    end.

Definition storeInLRUCacheMw {KG : KeyGenerator} : Middleware :=
  λ req res,
    let res := res_once_end StoreInLRU res in
    next res.

Definition checkInRedisMw {KG : KeyGenerator} (client : Client) : Middleware :=
  λ req res,
    match req_get req "Idempotency-Key" with
    | Some (String _ _ as idempotencyKey) =>
        let! cacheKey := generate req idempotencyKey in
        do! emit (RemoteGet cacheKey) in
        let! storedResponse := getAsync client cacheKey redis_print in
        match storedResponse with
        | None => next res
        | Some storedResponse =>
            let res := res_status (statusCode storedResponse) res in
            let res := res_set_all (headers storedResponse) res in
            let res := res_set "X-Cache" "HIT" res in
            let! res := res_send req (body storedResponse) res in
            ret (NotCalled, res)
        end
    | _ => next res
    end.

Definition storeInRedisMw {KG : KeyGenerator} (client : Client) : Middleware :=
  λ req res,
    let res := res_once_end (StoreInRedis client) res in
    next res.

(** A [connect] chain handling one request: every middleware here ends
    with [return next()] or does not call [next] at all, so the stack
    runs front to back until one of them keeps the request; falling off
    the end calls the [next] the chain itself was given. A rejected
    [async] middleware leaves the request where it is. *)
Fixpoint handle (stack : list Middleware) (req : Request) (res : Res) : M (Flow * Res) :=
  match stack with
  | [] => next res
  | mw :: rest =>
      let! r := mw req res in
      match r with
      | (NextCalled, res') => handle rest req res'
      | (NotCalled, res') => ret (NotCalled, res')
      end
  end.

(** What [options.cacheEngine] may hold. A number is given by its
    rendering [String(n)], which is all the constructor uses of it. *)
Inductive JsValue :=
| JsUndefined
| JsNull
| JsBoolean (b : bool)
| JsNumber (rendering : string)
| JsString (s : string).

(** The string a value turns into under ['...' + v]. *)
Definition js_to_string (v : JsValue) : string :=
  match v with
  | JsUndefined => "undefined"
  | JsNull => "null"
  | JsBoolean true => "true"
  | JsBoolean false => "false"
  | JsNumber rendering => rendering
  | JsString s => s
  end.

(** [v === 'literal'] and [v == 'literal'] agree whenever [v] is a
    string; against the two literals used here [==] is also false on
    every other value. *)
Definition equals_literal (v : JsValue) (literal : string) : bool :=
  match v with
  | JsString s => bool_decide (s = literal)
  | _ => false
  end.

Record RedisOptions := mkRedisOptions { client : Client }.

Record Options := mkOptions {
  cacheEngine : JsValue;
  redis       : option RedisOptions
}.

Definition quoted (s : string) : string :=
  String (Ascii.ascii_of_nat 34) s +:+ String (Ascii.ascii_of_nat 34) EmptyString.

Definition idempotency {KG : KeyGenerator} (options : Options) : Completion (list Middleware) :=
  if negb (equals_literal (cacheEngine options) "lru")
     && negb (equals_literal (cacheEngine options) "redis")
  then Throw (TypeError ("Unknown cacheEngine "
                         +:+ js_to_string (cacheEngine options)
                         +:+ ". Must be either " +:+ quoted "lru"
                         +:+ " or " +:+ quoted "redis" +:+ "."))
  else
    let chain := [expressEnd] in
    if equals_literal (cacheEngine options) "lru"
    then Return (chain ++ [checkInLRUCacheMw; storeInLRUCacheMw])%list
    else if equals_literal (cacheEngine options) "redis"
    then match redis options with
         | Some r => Return (chain ++ [checkInRedisMw (client r);
                                       storeInRedisMw (client r)])%list
         | None => Throw (TypeError "Cannot read property 'client' of undefined")
         end
    else Return chain.

(* ===================================================================== *)
(** ** The single-backend variant of the middleware *)
(* ===================================================================== *)

Module SingleBackend.

Definition checkMw {KG : KeyGenerator} : Middleware :=
  λ req res,
    match req_get req "Idempotency-Key" with
    | Some (String _ _ as idempotencyKey) =>
        let! cacheKey := generate req idempotencyKey in
        let! storedResponse := cache_get cacheKey in
        match storedResponse with
        | None => next res
        | Some storedResponse =>
            let res := res_status (statusCode storedResponse) res in
            let res := res_set_all (headers storedResponse) res in
            let res := res_set "X-Cache" "HIT" res in
            let! res := res_send req (body storedResponse) res in
            ret (NotCalled, res)
        end
    | _ => next res
    end.

Definition storeMw {KG : KeyGenerator} : Middleware :=
  λ req res,
    let res := res_once_end StoreInLRU res in
    next res.

(** Takes its [options] and does not read them. *)
Definition idempotency {KG : KeyGenerator} (options : Options) : Completion (list Middleware) :=
  Return ([expressEnd] ++ [checkMw] ++ [storeMw])%list.

End SingleBackend.

(* ===================================================================== *)
(** ** The downstream pipeline and several requests over one store *)
(* ===================================================================== *)

(** What the pipeline may do to the response object before it ends the
    response. Only [res.status] and assignments reach the properties the
    store listener reads; the headers handed to [res.set] are kept by
    the framework, not in [res.headers]. *)
Inductive Step :=
| Status (code : Z)
| SetHeader (field value : string)
| SetHeaders (obj : option (gmap string string))
| AssignBody (b : option string)
| AssignHeaders (hs : option (gmap string string)).

Definition step_res (res : Res) (st : Step) : Res :=
  match st with
  | Status code => res_status code res
  | SetHeader _ _ | SetHeaders _ => res
  | AssignBody b =>
      mkRes (res_statusCode res) b (res_headers res)
            (header_calls res) (sent_body res) (end_patched res) (on_end res)
  | AssignHeaders hs =>
      mkRes (res_statusCode res) (res_body res) hs
            (header_calls res) (sent_body res) (end_patched res) (on_end res)
  end.

(** One forwarded request as the pipeline handles it: [live] is the
    request object as the pipeline leaves it (a router may have
    rewritten its path, a middleware its method or headers; left alone,
    it is the request that arrived), [steps] is what it does to the
    response object, and [payload] is the argument of the [res.send]
    with which it ends the response, the body the client receives. *)
Record Handled := mkHandled {
  live    : Request;
  steps   : list Step;
  payload : option string
}.

(** The response object when the pipeline ends the response. *)
Definition pipeline (h : Handled) (res : Res) : Res :=
  foldl step_res res (steps h).

(** What the store listener will find on a response object that was
    fresh when the request arrived. *)
Definition recorded (h : Handled) : Response :=
  captured (pipeline h fresh_res).

(** The host runs one evaluation of the chain per inbound request, and
    the pipeline finishes each forwarded request at some later point, in
    any order. [inflight] holds the response objects of the requests the
    pipeline still works on, [downstream] every request the chain handed
    on (one entry per call of the outer [next]), [answered] the response
    objects that have been ended. *)
Record Server := mkServer {
  world      : World;
  inflight   : gmap nat Res;
  downstream : list (nat * Request);
  answered   : list (nat * Res)
}.

Inductive Input :=
| Arrive (id : nat) (req : Request)
| Finish (id : nat) (h : Handled).

Definition boot (N : nat) : Server :=
  mkServer (mkWorld (LRU.empty N) ∅ []) ∅ [] [].

Definition arrive {KG : KeyGenerator}
    (gate : list Middleware) (id : nat) (req : Request) (s : Server) : Server :=
  match handle gate req fresh_res (world s) with
  | (Return (NextCalled, res), w) =>
      mkServer w (<[id := res]> (inflight s))
               (downstream s ++ [(id, req)])%list (answered s)
  | (Return (NotCalled, res), w) =>
      mkServer w (inflight s) (downstream s) (answered s ++ [(id, res)])%list
  | (Throw _, w) =>
      mkServer w (inflight s) (downstream s) (answered s)
  end.

(** The pipeline ends the response of request [id]. *)
Definition finish {KG : KeyGenerator} (id : nat) (h : Handled) (s : Server) : Server :=
  match inflight s !! id with
  | None => s
  | Some res =>
      match res_end (live h) (pipeline h res) (world s) with
      | (Return res', w) =>
          mkServer w (delete id (inflight s)) (downstream s)
                   (answered s ++ [(id, res')])%list
      | (Throw _, w) =>
          mkServer w (delete id (inflight s)) (downstream s) (answered s)
      end
  end.

Definition step {KG : KeyGenerator} (gate : list Middleware) (s : Server) (i : Input) : Server :=
  match i with
  | Arrive id req => arrive gate id req s
  | Finish id h => finish id h s
  end.

Definition serve {KG : KeyGenerator} (gate : list Middleware) (inputs : list Input) (s : Server) : Server :=
  foldl (step gate) s inputs.

(** The chain built for the local backend. *)
Definition lru_gate {KG : KeyGenerator} : list Middleware :=
  [expressEnd; checkInLRUCacheMw; storeInLRUCacheMw].

(** The chain built for the remote backend. *)
Definition redis_gate {KG : KeyGenerator} (client : Client) : list Middleware :=
  [expressEnd; checkInRedisMw client; storeInRedisMw client].

(** Projections of the trace. *)
Definition is_store (ev : Event) : bool :=
  match ev with CacheSet _ _ | RemoteSet _ _ => true | _ => false end.

Definition stores (w : World) : list Event := filter (λ ev, is_store ev = true) (log w).

Definition is_remote (ev : Event) : bool :=
  match ev with RemoteGet _ | RemoteSet _ _ => true | _ => false end.

Definition is_local (ev : Event) : bool :=
  match ev with CacheGet _ | CacheSet _ _ => true | _ => false end.

(** [w] with more entries in its trace. *)
Definition logged (w : World) (evs : list Event) : World :=
  mkWorld (cache w) (remote w) (log w ++ evs)%list.

(** The gate has marked a response as a replay when its last word on
    the headers is [res.set('X-Cache', 'HIT')]. *)
Definition marked_hit (res : Res) : Prop :=
  last (header_calls res) = Some (SetOne "X-Cache" "HIT").

(** The idempotency token of a request, when it carries one: the header
    value, unless it is [undefined] or the empty string (both falsy). *)
Definition token_of (req : Request) : option string :=
  match req_get req "Idempotency-Key" with
  | Some (String _ _ as idempotencyKey) => Some idempotencyKey
  | _ => None
  end.

(** [res] after [express-end] wrapped its [end]. *)
Definition patched (res : Res) : Res :=
  mkRes (res_statusCode res) (res_body res) (res_headers res)
        (header_calls res) (sent_body res) true (on_end res).

(** [res] once its 'end' listeners are gone. *)
Definition unlistened (res : Res) : Res :=
  mkRes (res_statusCode res) (res_body res) (res_headers res)
        (header_calls res) (sent_body res) (end_patched res) [].

(** The replay of a stored response on [res]: [res.status], [res.set]
    with the stored headers, [res.set('X-Cache', 'HIT')], [res.send],
    in this order. *)
Definition replayed (s : Response) (res : Res) : Res :=
  mkRes (statusCode s) (res_body res) (res_headers res)
        (header_calls res ++ [SetAll (headers s); SetOne "X-Cache" "HIT"])%list
        (Some (body s)) (end_patched res) (on_end res).

(** A client that works on the remote service only: its operations
    leave the local cache and the trace as they are. *)
Definition remote_only (client : Client) : Prop :=
  (∀ k cb w, cache (getAsync client k cb w).2 = cache w ∧
             log (getAsync client k cb w).2 = log w) ∧
  (∀ k v cb w, cache (setAsync client k v cb w).2 = cache w ∧
               log (setAsync client k v cb w).2 = log w).

(* ===================================================================== *)
(** ** Sample requests and pipelines *)
(* ===================================================================== *)

Definition order_request : Request :=
  mkRequest "POST" "/orders" {[ "Idempotency-Key" := "tok-1" ]} "{}".

Definition plain_request : Request :=
  mkRequest "POST" "/orders" ∅ "{}".

Definition refund_request : Request :=
  mkRequest "POST" "/refunds" {[ "Idempotency-Key" := "tok-1" ]} "{}".

(** The order is created: [res.status(201)], a content type, a body. *)
Definition order_created : Handled :=
  mkHandled order_request
            [Status 201; SetHeader "Content-Type" "application/json"]
            (Some "{ok}").

(** The order fails with a 500. *)
Definition order_failed : Handled :=
  mkHandled order_request [Status 500] (Some "boom").

(** As [order_created], by a handler that sits in a router mounted at
    [/orders]: while it runs, the request's path is the rest of the
    path, and so it is when the response ends. *)
Definition order_created_in_router : Handled :=
  mkHandled (mkRequest "POST" "/" {[ "Idempotency-Key" := "tok-1" ]} "{}")
            [Status 201; SetHeader "Content-Type" "application/json"]
            (Some "{ok}").



(** One tokened request served to completion by the local chain. *)
Definition first_served : Server :=
  serve (KG := compositeKey) (lru_gate (KG := compositeKey))
        [Arrive 1 order_request; Finish 1 order_created] (boot 2).

(** Two requests with the same key, the second arriving before the first
    has completed. *)
Definition overlapping : list Input :=
  [Arrive 1 order_request; Arrive 2 order_request;
   Finish 1 order_created; Finish 2 order_failed].
(* ===================================================================== *)
(** ** Properties of the bounded local store *)
(* ===================================================================== *)

Local Close Scope string_scope.

Section LRUFacts.
Context {V : Type}.
Implicit Types (c : LRU.t V) (es : list (LRU.entry V)) (e : LRU.entry V).
Implicit Types (k : string) (v : V).

Lemma lru_lookup_without_eq k es :
  LRU.lookup_entry k (LRU.without k es) = None.
Proof.
  induction es as [|e es IH]; [done|].
  unfold LRU.without in *. rewrite filter_cons.
  destruct (decide (LRU.ekey e ≠ k)) as [Hne|Heq]; [|done].
  simpl. by rewrite decide_False.
Qed.

Lemma lru_lookup_without_ne k k' es :
  k ≠ k' → LRU.lookup_entry k' (LRU.without k es) = LRU.lookup_entry k' es.
Proof.
  intros Hk. induction es as [|e es IH]; [done|].
  unfold LRU.without in *. rewrite filter_cons.
  destruct (decide (LRU.ekey e ≠ k)) as [Hne|Heq]; simpl.
  - by rewrite IH.
  - rewrite IH. apply dec_stable in Heq. rewrite decide_False; congruence.
Qed.

Lemma lru_lookup_key k es e :
  LRU.lookup_entry k es = Some e → LRU.ekey e = k ∧ e ∈ es.
Proof.
  induction es as [|e' es IH]; [done|]. simpl.
  destruct (decide (LRU.ekey e' = k)).
  - intros [= <-]. split; [done | left].
  - intros H. destruct (IH H). split; [done | by right].
Qed.

Lemma lru_lookup_None k es :
  LRU.lookup_entry k es = None ↔ k ∉ LRU.ekey <$> es.
Proof.
  induction es as [|e es IH]; simpl.
  - split; [intros _; apply not_elem_of_nil | done].
  - rewrite not_elem_of_cons. destruct (decide (LRU.ekey e = k)); [|].
    + split; [done | intros [? _]; congruence].
    + rewrite IH. split; [intros H; split; [congruence | done] | by intros [_ H]].
Qed.

(** A lookup returns the content. *)
Lemma lru_get_peek k c : (LRU.get k c).1 = LRU.peek k c.
Proof. unfold LRU.get, LRU.peek. by destruct (LRU.lookup_entry k _). Qed.

(** A lookup that finds nothing leaves the store as it is. *)
Lemma lru_get_miss k c : LRU.peek k c = None → (LRU.get k c).2 = c.
Proof.
  unfold LRU.get, LRU.peek. by destruct (LRU.lookup_entry k _).
Qed.

(** A lookup changes no content, only the recency order. *)
Lemma lru_peek_get k k' c : LRU.peek k' (LRU.get k c).2 = LRU.peek k' c.
Proof.
  unfold LRU.get, LRU.peek.
  destruct (LRU.lookup_entry k (LRU.entries c)) as [e|] eqn:He; [|done].
  simpl. destruct (lru_lookup_key _ _ _ He) as [Hk _].
  destruct (decide (k = k')) as [<-|Hne].
  - rewrite decide_True by done. by rewrite He.
  - rewrite decide_False by congruence. by rewrite lru_lookup_without_ne.
Qed.

(** With room for at least one entry, what was stored is found. *)
Lemma lru_peek_set_eq k v c :
  0 < LRU.capacity c → LRU.peek k (LRU.set k v c) = Some v.
Proof.
  intros Hcap. unfold LRU.peek, LRU.set. simpl.
  destruct (LRU.capacity c) as [|n]; [lia|].
  simpl. by rewrite decide_True.
Qed.

Lemma lru_capacity_get k c : LRU.capacity (LRU.get k c).2 = LRU.capacity c.
Proof. unfold LRU.get. by destruct (LRU.lookup_entry k _). Qed.

Lemma lru_capacity_set k v c : LRU.capacity (LRU.set k v c) = LRU.capacity c.
Proof. done. Qed.

Lemma lru_capacity_run ops c : LRU.capacity (LRU.run ops c) = LRU.capacity c.
Proof.
  revert c. induction ops as [|[k|k v] ops IH]; intros c; [done|..];
    unfold LRU.run in *; simpl; rewrite IH.
  - apply lru_capacity_get.
  - apply lru_capacity_set.
Qed.


Lemma lru_without_absent k es :
  LRU.lookup_entry k es = None → LRU.without k es = es.
Proof.
  induction es as [|e es IH]; [done|]. simpl.
  destruct (decide (LRU.ekey e = k)) as [|Hne]; [done|]. intros H.
  unfold LRU.without in *. rewrite filter_cons, decide_True by done.
  by rewrite IH.
Qed.

Lemma lru_without_length k es e :
  LRU.lookup_entry k es = Some e → S (length (LRU.without k es)) ≤ length es.
Proof.
  induction es as [|e' es IH]; [done|]. simpl.
  unfold LRU.without in *. rewrite filter_cons.
  destruct (decide (LRU.ekey e' = k)) as [Heq|Hne].
  - intros _. rewrite decide_False by (intros Hc; by apply Hc).
    pose proof (length_filter (λ e0, LRU.ekey e0 ≠ k) es). lia.
  - intros H. rewrite decide_True by done. simpl. apply IH in H. lia.
Qed.

Lemma lru_without_sublist k es : LRU.without k es `sublist_of` es.
Proof. apply sublist_filter. Qed.

Lemma lru_sorted_sublist (R : relation (LRU.entry V)) es1 es2 :
  es1 `sublist_of` es2 → StronglySorted R es2 → StronglySorted R es1.
Proof.
  induction 1 as [|x l1 l2 Hs IH|x l1 l2 Hs IH]; intros Hsorted.
  - constructor.
  - apply StronglySorted_inv in Hsorted as [Htl Hhd].
    constructor; [by apply IH|].
    apply Forall_forall. intros y Hy.
    eapply Forall_forall in Hhd; [done|]. by eapply elem_of_sublist.
  - apply StronglySorted_inv in Hsorted as [Htl _]. by apply IH.
Qed.

Lemma lru_Forall_sublist (P : LRU.entry V → Prop) es1 es2 :
  es1 `sublist_of` es2 → Forall P es2 → Forall P es1.
Proof.
  intros Hs H. apply Forall_forall. intros y Hy.
  eapply Forall_forall in H; [done|]. by eapply elem_of_sublist.
Qed.

(** A fresh stamp in front of the remaining entries keeps the invariant;
    both a found lookup and an insertion have this shape. *)
Lemma lru_wf_front c e cap :
  LRU.wf c → LRU.recency e = LRU.clock c →
  S (length (LRU.without (LRU.ekey e) (LRU.entries c))) ≤ cap →
  LRU.wf (LRU.Cache cap (S (LRU.clock c))
                    (e :: LRU.without (LRU.ekey e) (LRU.entries c))).
Proof.
  intros [Hsize Hnd Hsorted Hclock] Hrec Hlen.
  pose proof (lru_without_sublist (LRU.ekey e) (LRU.entries c)) as Hsub.
  split; unfold LRU.size, LRU.keys in *; simpl.
  - done.
  - constructor.
    + apply lru_lookup_None, lru_lookup_without_eq.
    + eapply sublist_NoDup; [exact Hnd | by apply fmap_sublist].
  - constructor; [by eapply lru_sorted_sublist|].
    eapply lru_Forall_sublist; [exact Hsub|].
    eapply Forall_impl; [exact Hclock|]. simpl. intros; lia.
  - constructor; [lia|].
    eapply lru_Forall_sublist; [exact Hsub|].
    eapply Forall_impl; [exact Hclock|]. simpl. intros; lia.
Qed.

(** Dropping entries from the least recently used end keeps it too. *)
Lemma lru_wf_take cap clk es n :
  n ≤ cap → LRU.wf (LRU.Cache cap clk es) → LRU.wf (LRU.Cache n clk (take n es)).
Proof.
  intros Hn [Hsize Hnd Hsorted Hclock].
  unfold LRU.size, LRU.keys in *; simpl in *.
  split; unfold LRU.size, LRU.keys; simpl.
  - rewrite length_take. lia.
  - eapply sublist_NoDup; [exact Hnd | apply fmap_sublist, sublist_take].
  - eapply lru_sorted_sublist; [apply sublist_take | done].
  - by apply Forall_take.
Qed.

Lemma lru_wf_empty N : LRU.wf (LRU.empty N : LRU.t V).
Proof.
  split; unfold LRU.size, LRU.keys; simpl; [lia | constructor..].
Qed.

Lemma lru_wf_get k c : LRU.wf c → LRU.wf (LRU.get k c).2.
Proof.
  intros Hwf. unfold LRU.get.
  destruct (LRU.lookup_entry k (LRU.entries c)) as [e|] eqn:He; [|done].
  simpl. destruct (lru_lookup_key _ _ _ He) as [Hk _].
  pose proof (lru_wf_front c (LRU.touch (LRU.clock c) e) (LRU.capacity c) Hwf)
    as H. simpl in H. rewrite Hk in H. apply H; [done|].
  apply lru_without_length in He. destruct Hwf as [Hsize _ _ _].
  unfold LRU.size in Hsize. lia.
Qed.

Lemma lru_wf_set k v c : LRU.wf c → LRU.wf (LRU.set k v c).
Proof.
  intros Hwf. unfold LRU.set.
  set (e := LRU.Entry k v (LRU.clock c) None).
  pose proof (lru_wf_front c e
    (S (length (LRU.without k (LRU.entries c)))) Hwf eq_refl) as H.
  simpl in H. specialize (H (le_n _)).
  destruct (decide (LRU.capacity c ≤ S (length (LRU.without k (LRU.entries c)))))
    as [Hle|Hgt].
  - by eapply lru_wf_take in H.
  - rewrite take_ge by (simpl; lia).
    destruct H as [Hsize Hnd Hsorted Hclock].
    split; unfold LRU.size, LRU.keys in *; simpl in *; [lia | done..].
Qed.

Lemma lru_wf_run ops c : LRU.wf c → LRU.wf (LRU.run ops c).
Proof.
  revert c. induction ops as [|[k|k v] ops IH]; intros c Hwf; [done|..];
    unfold LRU.run in *; simpl; apply IH.
  - by apply lru_wf_get.
  - by apply lru_wf_set.
Qed.


Lemma lru_lookup_take k n es e :
  LRU.lookup_entry k (take n es) = Some e → LRU.lookup_entry k es = Some e.
Proof.
  revert n. induction es as [|e' es IH]; intros [|n]; simpl; try done.
  destruct (decide (LRU.ekey e' = k)); [done|]. apply IH.
Qed.

(** Storing under one key brings no content under another. *)
Lemma lru_peek_set_other k k' v c x :
  k ≠ k' → LRU.peek k' (LRU.set k v c) = Some x → LRU.peek k' c = Some x.
Proof.
  intros Hne. unfold LRU.peek, LRU.set. simpl.
  destruct (LRU.lookup_entry k' (take _ _)) as [e|] eqn:He; [|done].
  apply lru_lookup_take in He. simpl in He.
  rewrite decide_False in He by done.
  rewrite lru_lookup_without_ne in He by done. by rewrite He.
Qed.

Lemma lru_lookup_app k es1 es2 :
  LRU.lookup_entry k (es1 ++ es2) =
    match LRU.lookup_entry k es1 with
    | Some e => Some e
    | None => LRU.lookup_entry k es2
    end.
Proof.
  induction es1 as [|e es1 IH]; [done|]. simpl.
  by destruct (decide (LRU.ekey e = k)).
Qed.

(** Inserting an absent key into a full store: the tail of the recency
    order goes, everything else stays. *)
Lemma lru_set_full k v c :
  LRU.wf c → 0 < LRU.capacity c → LRU.size c = LRU.capacity c →
  LRU.peek k c = None →
  ∃ rest victim,
    LRU.entries c = rest ++ [victim] ∧
    LRU.entries (LRU.set k v c) = LRU.Entry k v (LRU.clock c) None :: rest ∧
    ∀ e, e ∈ rest → LRU.recency victim < LRU.recency e.
Proof.
  intros [Hsize Hnd Hsorted Hclock] Hcap Hfull Hpeek.
  unfold LRU.size, LRU.peek in *.
  destruct (LRU.lookup_entry k (LRU.entries c)) eqn:Hk; [done|].
  destruct (LRU.entries c) as [|e0 es0] eqn:Hes using rev_ind;
    [simpl in Hfull; lia|]. clear IHes0.
  exists es0, e0. split; [done|]. split.
  - unfold LRU.set. simpl. rewrite Hes, lru_without_absent by done.
    rewrite length_app in Hfull. simpl in Hfull.
    destruct (LRU.capacity c) as [|n]; [lia|]. simpl.
    rewrite take_app_length' by lia. done.
  - intros e He.
    apply (StronglySorted_app_1_elem_of _ _ _ e e0 Hsorted He). left.
Qed.

(** *** The recency order against the history of operations *)

Lemma last_pos_snoc (P : LRU.op V → bool) ops o :
  LRU.last_pos P (ops ++ [o]) = if P o then S (length ops) else LRU.last_pos P ops.
Proof.
  induction ops as [|a ops IH]; simpl.
  - by destruct (P o).
  - rewrite IH. by destruct (P o).
Qed.

Lemma last_pos_le (P : LRU.op V → bool) ops : LRU.last_pos P ops ≤ length ops.
Proof.
  induction ops as [|a ops IH]; simpl; [done|].
  destruct (LRU.last_pos P ops); [destruct (P a)|]; lia.
Qed.

Lemma last_access_le (ops : list (LRU.op V)) k : LRU.last_access ops k ≤ length ops.
Proof.
  unfold LRU.last_access, LRU.last_lookup, LRU.last_store.
  pose proof (last_pos_le (LRU.is_lookup_of k) ops).
  pose proof (last_pos_le (LRU.is_store_of k) ops). lia.
Qed.

(** The key an operation works on. *)
Definition op_key (o : LRU.op V) : string :=
  match o with LRU.Lookup k => k | LRU.Store k _ => k end.

Lemma last_access_snoc_same (ops : list (LRU.op V)) o :
  LRU.last_access (ops ++ [o]) (op_key o) = S (length ops).
Proof.
  unfold LRU.last_access, LRU.last_lookup, LRU.last_store.
  rewrite !last_pos_snoc.
  pose proof (last_pos_le (LRU.is_lookup_of (op_key o)) ops).
  pose proof (last_pos_le (LRU.is_store_of (op_key o)) ops).
  destruct o as [k|k v]; simpl in *; rewrite bool_decide_eq_true_2 by done; lia.
Qed.

Lemma last_access_snoc_other (ops : list (LRU.op V)) o k :
  op_key o ≠ k → LRU.last_access (ops ++ [o]) k = LRU.last_access ops k.
Proof.
  intros Hne. unfold LRU.last_access, LRU.last_lookup, LRU.last_store.
  rewrite !last_pos_snoc.
  destruct o as [k'|k' v]; simpl in *; by rewrite bool_decide_eq_false_2.
Qed.

(** The stamps of the entries order them as the history does. *)
Definition follows_history (ops : list (LRU.op V)) (c : LRU.t V) : Prop :=
  ∀ e e', e ∈ LRU.entries c → e' ∈ LRU.entries c →
    LRU.recency e < LRU.recency e' →
    LRU.last_access ops (LRU.ekey e) < LRU.last_access ops (LRU.ekey e').

Lemma follows_history_front ops o c e0 cap clk :
  LRU.wf c → follows_history ops c →
  LRU.ekey e0 = op_key o → LRU.recency e0 = LRU.clock c →
  follows_history (ops ++ [o])
    (LRU.Cache cap clk (e0 :: LRU.without (op_key o) (LRU.entries c))).
Proof.
  intros [_ _ _ Hclock] Hh Hkey Hrec e e' He He' Hlt. simpl in He, He'.
  assert (Hothers : ∀ x, x ∈ LRU.without (op_key o) (LRU.entries c) →
            LRU.ekey x ≠ op_key o ∧ x ∈ LRU.entries c ∧
            LRU.recency x < LRU.clock c).
  { intros x [Hx1 Hx2]%list_elem_of_filter. split; [done|]. split; [done|].
    by eapply Forall_forall in Hclock. }
  apply elem_of_cons in He as [-> | He], He' as [-> | He'].
  - lia.
  - destruct (Hothers e' He') as (_ & _ & ?). lia.
  - destruct (Hothers e He) as (Hne & _ & _).
    rewrite Hkey, last_access_snoc_same.
    rewrite last_access_snoc_other by done.
    pose proof (last_access_le ops (LRU.ekey e)). lia.
  - destruct (Hothers e He) as (Hne & Hin & _).
    destruct (Hothers e' He') as (Hne' & Hin' & _).
    rewrite !last_access_snoc_other by done. by apply Hh.
Qed.

Lemma follows_history_apply ops o c :
  LRU.wf c → follows_history ops c →
  follows_history (ops ++ [o]) (LRU.apply c o).
Proof.
  intros Hwf Hh. destruct o as [k|k v]; simpl.
  - unfold LRU.get.
    destruct (LRU.lookup_entry k (LRU.entries c)) as [e|] eqn:He; simpl.
    + destruct (lru_lookup_key _ _ _ He) as [Hk _].
      by apply (follows_history_front ops (LRU.Lookup k) c).
    + apply lru_lookup_None in He.
      intros e1 e2 H1 H2 Hlt.
      assert (Hk : ∀ x, x ∈ LRU.entries c → k ≠ LRU.ekey x).
      { intros x Hx ->. apply He. by apply list_elem_of_fmap_2. }
      rewrite !(last_access_snoc_other ops (LRU.Lookup k)) by (by apply Hk).
      by apply Hh.
  - pose proof (follows_history_front ops (LRU.Store k v) c
                  (LRU.Entry k v (LRU.clock c) None)
                  (LRU.capacity c) (S (LRU.clock c)) Hwf Hh eq_refl eq_refl)
      as Hfront.
    intros e1 e2 H1 H2. unfold LRU.set in H1, H2. simpl in H1, H2.
    apply Hfront; simpl; by eapply elem_of_sublist; [|apply sublist_take].
Qed.

Lemma lru_run_snoc ops o c : LRU.run (ops ++ [o]) c = LRU.apply (LRU.run ops c) o.
Proof. unfold LRU.run. by rewrite foldl_app. Qed.

Lemma follows_history_run N ops :
  follows_history ops (LRU.run ops (LRU.empty N)).
Proof.
  induction ops as [|o ops IH] using rev_ind.
  - intros e e' He. by apply elem_of_nil in He.
  - rewrite lru_run_snoc. apply follows_history_apply; [|done].
    apply lru_wf_run, lru_wf_empty.
Qed.

(** C7 (eviction bound). Starting from the empty store of capacity [N],
    after any sequence [ops] of lookups and stores the store holds at
    most [N] entries. When it holds exactly [N] and a key that is not
    present is stored, one key, the victim, is evicted: the store still
    holds [N] entries, the new key among them, the victim is gone, and
    every other key holds what it held. The victim is the key whose last
    lookup or store lies furthest back in [ops]: every other key present
    has been looked up or stored more recently. In particular, among
    keys that have not been looked up since they were stored, the one
    stored earliest goes. *)
Theorem lru_eviction_bound (N : nat) (ops : list (LRU.op V)) :
  LRU.size (LRU.run ops (LRU.empty N)) ≤ N ∧
  ∀ k v,
    0 < N →
    LRU.size (LRU.run ops (LRU.empty N)) = N →
    LRU.peek k (LRU.run ops (LRU.empty N)) = None →
    ∃ victim,
      victim ∈ LRU.keys (LRU.run ops (LRU.empty N)) ∧
      (∀ k', k' ∈ LRU.keys (LRU.run ops (LRU.empty N)) → k' ≠ victim →
             LRU.last_access ops victim < LRU.last_access ops k') ∧
      (∀ k', k' ∈ LRU.keys (LRU.run ops (LRU.empty N)) → k' ≠ victim →
             LRU.last_lookup ops victim < LRU.last_store ops victim →
             LRU.last_lookup ops k' < LRU.last_store ops k' →
             LRU.last_store ops victim < LRU.last_store ops k') ∧
      LRU.size (LRU.set k v (LRU.run ops (LRU.empty N))) = N ∧
      LRU.peek k (LRU.set k v (LRU.run ops (LRU.empty N))) = Some v ∧
      LRU.peek victim (LRU.set k v (LRU.run ops (LRU.empty N))) = None ∧
      (∀ k', k' ≠ k → k' ≠ victim →
             LRU.peek k' (LRU.set k v (LRU.run ops (LRU.empty N)))
             = LRU.peek k' (LRU.run ops (LRU.empty N))).
Proof.
  pose proof (follows_history_run N ops) as Hh.
  set (c := LRU.run ops (LRU.empty N)) in *.
  assert (Hwf : LRU.wf c) by apply lru_wf_run, lru_wf_empty.
  assert (Hcap : LRU.capacity c = N) by apply lru_capacity_run.
  split.
  - destruct Hwf as [Hsize _ _ _]. lia.
  - intros k v HN Hfull Hpeek.
    destruct (lru_set_full k v c Hwf) as (rest & victim & Hes & Hset & Hlt);
      [lia | lia | done |].
    assert (Hlen : length rest + 1 = N).
    { unfold LRU.size in Hfull. rewrite Hes, length_app in Hfull.
      simpl in Hfull. lia. }
    assert (Hnd : NoDup (LRU.ekey <$> rest ++ [victim])).
    { destruct Hwf as [_ Hnd _ _]. unfold LRU.keys in Hnd. by rewrite Hes in Hnd. }
    rewrite fmap_app in Hnd. simpl in Hnd.
    apply NoDup_app in Hnd as (_ & Hdisj & _).
    assert (Hvictim_rest : LRU.lookup_entry (LRU.ekey victim) rest = None).
    { apply lru_lookup_None. intros Hin. apply (Hdisj _ Hin). left. }
    assert (Hk_absent : k ∉ LRU.ekey <$> LRU.entries c).
    { apply lru_lookup_None. unfold LRU.peek in Hpeek.
      by destruct (LRU.lookup_entry k (LRU.entries c)). }
    assert (Hk_victim : LRU.ekey victim ≠ k).
    { intros Heq. apply Hk_absent. rewrite Hes, fmap_app. apply elem_of_app.
      right. rewrite <- Heq. left. }
    assert (Hstrict : ∀ k', k' ∈ LRU.keys c → k' ≠ LRU.ekey victim →
              LRU.last_access ops (LRU.ekey victim) < LRU.last_access ops k').
    { intros k' Hin Hne. unfold LRU.keys in Hin. rewrite Hes, fmap_app in Hin.
      apply elem_of_app in Hin as [Hin | Hin].
      - apply list_elem_of_fmap in Hin as (e & -> & He).
        apply Hh; [rewrite Hes .. |].
        + apply elem_of_app. right. left.
        + apply elem_of_app. by left.
        + by apply Hlt.
      - simpl in Hin. apply list_elem_of_singleton in Hin. done. }
    exists (LRU.ekey victim).
    split; [|split; [exact Hstrict|split; [|split; [|split; [|split]]]]].
    + unfold LRU.keys. rewrite Hes, fmap_app. apply elem_of_app. right. left.
    + intros k' Hin Hne Hv Hk'. specialize (Hstrict k' Hin Hne).
      unfold LRU.last_access in Hstrict. lia.
    + unfold LRU.size. rewrite Hset. simpl. lia.
    + apply lru_peek_set_eq. lia.
    + unfold LRU.peek. rewrite Hset. simpl.
      rewrite decide_False by congruence. by rewrite Hvictim_rest.
    + intros k' Hk' Hv. unfold LRU.peek. rewrite Hset, Hes. simpl.
      rewrite decide_False by done. rewrite lru_lookup_app. simpl.
      rewrite (decide_False (P := LRU.ekey victim = k')) by done.
      by destruct (LRU.lookup_entry k' rest).
Qed.

End LRUFacts.

(** Capacity two; the key that was looked up survives, the other one
    goes, although it was stored later. *)
Lemma lru_eviction_bound_witness :
  ∃ victim,
    victim ∈ LRU.keys (LRU.run [LRU.Store "a" 1; LRU.Store "b" 2; LRU.Lookup "a"]
                               (LRU.empty 2)) ∧
    (∀ k', k' ∈ LRU.keys (LRU.run [LRU.Store "a" 1; LRU.Store "b" 2;
                                   LRU.Lookup "a"] (LRU.empty 2)) →
           k' ≠ victim →
           LRU.last_access [LRU.Store "a" 1; LRU.Store "b" 2; LRU.Lookup "a"]
                           victim
           < LRU.last_access [LRU.Store "a" 1; LRU.Store "b" 2; LRU.Lookup "a"]
                             k') ∧
    (∀ k', k' ∈ LRU.keys (LRU.run [LRU.Store "a" 1; LRU.Store "b" 2;
                                   LRU.Lookup "a"] (LRU.empty 2)) →
           k' ≠ victim →
           LRU.last_lookup [LRU.Store "a" 1; LRU.Store "b" 2; LRU.Lookup "a"]
                           victim
           < LRU.last_store [LRU.Store "a" 1; LRU.Store "b" 2; LRU.Lookup "a"]
                            victim →
           LRU.last_lookup [LRU.Store "a" 1; LRU.Store "b" 2; LRU.Lookup "a"] k'
           < LRU.last_store [LRU.Store "a" 1; LRU.Store "b" 2; LRU.Lookup "a"]
                            k' →
           LRU.last_store [LRU.Store "a" 1; LRU.Store "b" 2; LRU.Lookup "a"]
                          victim
           < LRU.last_store [LRU.Store "a" 1; LRU.Store "b" 2; LRU.Lookup "a"]
                            k') ∧
    LRU.size (LRU.set "c" 3
      (LRU.run [LRU.Store "a" 1; LRU.Store "b" 2; LRU.Lookup "a"]
               (LRU.empty 2))) = 2 ∧
    LRU.peek "c" (LRU.set "c" 3
      (LRU.run [LRU.Store "a" 1; LRU.Store "b" 2; LRU.Lookup "a"]
               (LRU.empty 2))) = Some 3 ∧
    LRU.peek victim (LRU.set "c" 3
      (LRU.run [LRU.Store "a" 1; LRU.Store "b" 2; LRU.Lookup "a"]
               (LRU.empty 2))) = None ∧
    (∀ k', k' ≠ "c"%string → k' ≠ victim →
           LRU.peek k' (LRU.set "c" 3
             (LRU.run [LRU.Store "a" 1; LRU.Store "b" 2; LRU.Lookup "a"]
                      (LRU.empty 2)))
           = LRU.peek k' (LRU.run [LRU.Store "a" 1; LRU.Store "b" 2;
                                   LRU.Lookup "a"] (LRU.empty 2))).
Proof.
  apply (proj2 (lru_eviction_bound 2
           [LRU.Store "a" 1; LRU.Store "b" 2; LRU.Lookup "a"]) "c"%string 3).
  - lia.
  - reflexivity.
  - reflexivity.
Defined.

(** The run above evicts "b", the key that was not looked up. *)
Example lookup_protects_from_eviction :
  LRU.keys (LRU.set "c" 3
    (LRU.run [LRU.Store "a" 1; LRU.Store "b" 2; LRU.Lookup "a"] (LRU.empty 2)))
  = ["c"; "a"]%string.
Proof. reflexivity. Qed.

(** Without any lookup, the key stored first goes. *)
Example earliest_insertion_goes_first :
  LRU.keys (LRU.set "c" 3
    (LRU.run [LRU.Store "a" 1; LRU.Store "b" 2] (LRU.empty 2)))
  = ["c"; "b"]%string.
Proof. reflexivity. Qed.

(* ===================================================================== *)
(** ** How the chain runs *)
(* ===================================================================== *)

Local Open Scope string_scope.

(** The response object of a forwarded request, fresh when the request
    arrived, once the pipeline has ended it and the listeners have run. *)
Definition ended (h : Handled) : Res :=
  mkRes (statusCode (recorded h)) (body (recorded h)) (headers (recorded h))
        [] None true [].

Section GateFacts.
Context {KG : KeyGenerator}.
Implicit Types (req : Request) (res : Res) (w : World) (h : Handled).

Lemma token_of_Some req token :
  token_of req = Some token →
  ∃ a s, token = String a s ∧ req_get req "Idempotency-Key" = Some (String a s).
Proof.
  unfold token_of. destruct (req_get req _) as [[|a s]|]; [done| |done].
  intros [= <-]. by exists a, s.
Qed.

Lemma token_of_None req :
  token_of req = None →
  req_get req "Idempotency-Key" = None ∨
  req_get req "Idempotency-Key" = Some EmptyString.
Proof.
  unfold token_of. destruct (req_get req _) as [[|a s]|]; [by right|done|by left].
Qed.

(** The two files hold the same two middlewares. *)
Lemma checkMw_same : SingleBackend.checkMw = checkInLRUCacheMw.
Proof. reflexivity. Qed.

Lemma storeMw_same : SingleBackend.storeMw = storeInLRUCacheMw.
Proof. reflexivity. Qed.

Lemma idempotency_single options :
  SingleBackend.idempotency options = Return lru_gate.
Proof. reflexivity. Qed.

Lemma idempotency_lru r :
  idempotency (mkOptions (JsString "lru") r) = Return lru_gate.
Proof. reflexivity. Qed.

Lemma idempotency_redis c :
  idempotency (mkOptions (JsString "redis") (Some (mkRedisOptions c)))
  = Return (redis_gate c).
Proof. reflexivity. Qed.

(** The local chain on a request that carries a token. *)
Lemma handle_lru_token req res w token :
  token_of req = Some token → on_end res = [] →
  handle lru_gate req res w =
    (match LRU.peek (generateCacheKey req token) (cache w) with
     | None => Return (NextCalled, res_once_end StoreInLRU (patched res))
     | Some s => Return (NotCalled, replayed s (patched res))
     end,
     mkWorld (LRU.get (generateCacheKey req token) (cache w)).2 (remote w)
             (log w ++ [KeyGenerated req token;
                        CacheGet (generateCacheKey req token)])%list).
Proof.
  intros (a & s & -> & Hget)%token_of_Some Hnil.
  unfold lru_gate, handle, expressEnd, checkInLRUCacheMw, storeInLRUCacheMw.
  unfold next, bind, ret. rewrite Hget.
  unfold generate, emit, bind, ret, cache_get. simpl.
  rewrite <- lru_get_peek.
  destruct (LRU.get _ (cache w)) as [[stored|] c'] eqn:Hc; simpl;
    rewrite <- app_assoc; simpl.
  - unfold res_send, res_end, emit_end, bind, ret. simpl. rewrite Hnil. simpl.
    unfold replayed, patched. simpl. rewrite Hnil. by rewrite <- app_assoc.
  - done.
Qed.

(** The chain with the Redis client on a request that carries a token,
    up to the lookup. *)
Lemma handle_redis_token client req res w token :
  token_of req = Some token → on_end res = [] →
  handle (redis_gate client) req res w =
    match getAsync client (generateCacheKey req token) redis_print
            (mkWorld (cache w) (remote w)
               (log w ++ [KeyGenerated req token;
                          RemoteGet (generateCacheKey req token)])%list) with
    | (Return None, w') =>
        (Return (NextCalled,
                 res_once_end (StoreInRedis client) (patched res)), w')
    | (Return (Some s), w') => (Return (NotCalled, replayed s (patched res)), w')
    | (Throw e, w') => (Throw e, w')
    end.
Proof.
  intros (a & s & -> & Hget)%token_of_Some Hnil.
  unfold redis_gate, handle, expressEnd, checkInRedisMw, storeInRedisMw.
  unfold next, bind, ret. rewrite Hget.
  unfold generate, emit, bind, ret. simpl.
  rewrite <- app_assoc; simpl.
  destruct (getAsync client _ _ _) as [[[stored|]|e] w']; simpl; [|done..].
  unfold res_send, res_end, emit_end, bind, ret. simpl. rewrite Hnil. simpl.
  unfold replayed, patched. simpl. rewrite Hnil. by rewrite <- app_assoc.
Qed.

(** Without a token both chains hand the request on and only register
    their listener. *)
Lemma handle_lru_no_token req res w :
  token_of req = None →
  handle lru_gate req res w =
    (Return (NextCalled, res_once_end StoreInLRU (patched res)), w).
Proof.
  intros Hnone. unfold lru_gate, handle, expressEnd, checkInLRUCacheMw,
    storeInLRUCacheMw, next, bind, ret.
  by destruct (token_of_None _ Hnone) as [-> | ->].
Qed.

Lemma handle_redis_no_token client req res w :
  token_of req = None →
  handle (redis_gate client) req res w =
    (Return (NextCalled, res_once_end (StoreInRedis client) (patched res)), w).
Proof.
  intros Hnone. unfold redis_gate, handle, expressEnd, checkInRedisMw,
    storeInRedisMw, next, bind, ret.
  by destruct (token_of_None _ Hnone) as [-> | ->].
Qed.

(** What 'end' does to a response that carries the local store listener;
    [req] is the request object as it is at that moment. *)
Lemma res_end_lru_token req res w token :
  token_of req = Some token →
  end_patched res = true → on_end res = [StoreInLRU] →
  res_end req res w =
    (Return (unlistened res),
     mkWorld (LRU.set (generateCacheKey req token) (captured res) (cache w))
             (remote w)
             (log w ++ [KeyGenerated req token;
                        CacheSet (generateCacheKey req token) (captured res)])%list).
Proof.
  intros (a & s & -> & Hget)%token_of_Some Hp Hl.
  unfold res_end, emit_end, unlistened, captured, bind, ret.
  rewrite Hp, Hl. simpl.
  unfold storeInLRU_listener, bind, ret. rewrite Hget.
  unfold generate, emit, cache_set, bind, ret. simpl.
  by rewrite <- app_assoc.
Qed.

Lemma res_end_lru_no_token req res w :
  token_of req = None →
  end_patched res = true → on_end res = [StoreInLRU] →
  res_end req res w = (Return (unlistened res), w).
Proof.
  intros Hnone Hp Hl.
  unfold res_end, emit_end, unlistened, captured, bind, ret.
  rewrite Hp, Hl. simpl.
  unfold storeInLRU_listener, bind, ret.
  by destruct (token_of_None _ Hnone) as [-> | ->].
Qed.

Lemma res_end_redis_token client req res w token :
  token_of req = Some token →
  end_patched res = true → on_end res = [StoreInRedis client] →
  res_end req res w =
    (Return (unlistened res),
     (setAsync client (generateCacheKey req token) (captured res) redis_print
        (mkWorld (cache w) (remote w)
           (log w ++ [KeyGenerated req token;
                      RemoteSet (generateCacheKey req token) (captured res)])%list)).2).
Proof.
  intros (a & s & -> & Hget)%token_of_Some Hp Hl.
  unfold res_end, emit_end, unlistened, captured, bind, ret.
  rewrite Hp, Hl. simpl.
  unfold detached, storeInRedis_listener, bind, ret. rewrite Hget.
  unfold generate, emit, bind, ret. simpl. rewrite <- app_assoc. simpl.
  by destruct (setAsync client _ _ _ _) as [[[]|e] w'].
Qed.

Lemma res_end_redis_no_token client req res w :
  token_of req = None →
  end_patched res = true → on_end res = [StoreInRedis client] →
  res_end req res w = (Return (unlistened res), w).
Proof.
  intros Hnone Hp Hl.
  unfold res_end, emit_end, unlistened, captured, bind, ret.
  rewrite Hp, Hl. simpl.
  unfold detached, storeInRedis_listener, bind, ret.
  by destruct (token_of_None _ Hnone) as [-> | ->].
Qed.

(** 'end' on a response without listeners changes nothing. *)
Lemma res_end_unlistened req res w :
  on_end res = [] → res_end req res w = (Return (unlistened res), w).
Proof.
  intros Hl. unfold res_end, emit_end, unlistened, bind, ret.
  destruct res as [? ? ? ? ? p l]; simpl in *; subst l. by destruct p.
Qed.

(** The chains the constructor can return. *)
Lemma idempotency_Return options gate :
  idempotency options = Return gate →
  gate = lru_gate ∨ ∃ c, gate = redis_gate c.
Proof.
  destruct options as [engine r]. unfold idempotency. simpl.
  destruct engine as [| | b | n | s]; simpl; try discriminate.
  destruct (bool_decide (s = "lru")) eqn:Hlru; simpl.
  - intros [= <-]. by left.
  - destruct (bool_decide (s = "redis")) eqn:Hredis; simpl; [|discriminate].
    destruct r as [[c]|]; [|discriminate]. intros [= <-]. right. by exists c.
Qed.

(** The pipeline works on the three properties and on nothing else. *)
Lemma steps_shape (sts : list Step) res :
  foldl step_res res sts =
    mkRes (res_statusCode (foldl step_res res sts))
          (res_body (foldl step_res res sts))
          (res_headers (foldl step_res res sts))
          (header_calls res) (sent_body res) (end_patched res) (on_end res).
Proof.
  revert res. induction sts as [|st sts IH]; intros res; simpl.
  - by destruct res.
  - rewrite IH at 1. by destruct st.
Qed.

Lemma steps_captured (sts : list Step) res res' :
  captured res = captured res' →
  captured (foldl step_res res sts) = captured (foldl step_res res' sts).
Proof.
  revert res res'. induction sts as [|st sts IH]; intros res res' Heq; [done|].
  simpl. apply IH. unfold captured in *.
  destruct st; simpl; congruence.
Qed.

Lemma pipeline_forwarded h (l : Listener) :
  pipeline h (res_once_end l (patched fresh_res)) =
    mkRes (statusCode (recorded h)) (body (recorded h)) (headers (recorded h))
          [] None true [l].
Proof.
  unfold pipeline. rewrite steps_shape. simpl.
  pose proof (steps_captured (steps h) (res_once_end l (patched fresh_res))
                fresh_res eq_refl) as Hc.
  unfold recorded, pipeline. unfold captured in Hc. simpl.
  by injection Hc as -> -> ->.
Qed.

(** The pipeline ends a response the local chain handed on. *)
Lemma completion_lru h token w :
  token_of (live h) = Some token →
  res_end (live h) (pipeline h (res_once_end StoreInLRU (patched fresh_res))) w =
    (Return (ended h),
     mkWorld (LRU.set (generateCacheKey (live h) token) (recorded h) (cache w))
             (remote w)
             (log w ++ [KeyGenerated (live h) token;
                        CacheSet (generateCacheKey (live h) token)
                                 (recorded h)])%list).
Proof.
  intros Htok. rewrite pipeline_forwarded.
  erewrite res_end_lru_token; [|exact Htok|done|done].
  unfold ended, unlistened, captured.
  cbn [res_statusCode res_body res_headers header_calls sent_body
       end_patched on_end].
  by destruct (recorded h).
Qed.

Lemma completion_lru_no_token h w :
  token_of (live h) = None →
  res_end (live h) (pipeline h (res_once_end StoreInLRU (patched fresh_res))) w =
    (Return (ended h), w).
Proof.
  intros Htok. rewrite pipeline_forwarded.
  by erewrite res_end_lru_no_token; [|exact Htok|done|done].
Qed.

Lemma completion_redis client h token w :
  token_of (live h) = Some token →
  res_end (live h)
          (pipeline h (res_once_end (StoreInRedis client) (patched fresh_res))) w =
    (Return (ended h),
     (setAsync client (generateCacheKey (live h) token) (recorded h) redis_print
        (mkWorld (cache w) (remote w)
           (log w ++ [KeyGenerated (live h) token;
                      RemoteSet (generateCacheKey (live h) token)
                                (recorded h)])%list)).2).
Proof.
  intros Htok. rewrite pipeline_forwarded.
  erewrite res_end_redis_token; [|exact Htok|done|done].
  unfold ended, unlistened, captured.
  cbn [res_statusCode res_body res_headers header_calls sent_body
       end_patched on_end].
  by destruct (recorded h).
Qed.

Lemma completion_redis_no_token client h w :
  token_of (live h) = None →
  res_end (live h)
          (pipeline h (res_once_end (StoreInRedis client) (patched fresh_res))) w =
    (Return (ended h), w).
Proof.
  intros Htok. rewrite pipeline_forwarded.
  by erewrite res_end_redis_no_token; [|exact Htok|done|done].
Qed.

(** Ending an ended response again, whatever the pipeline does first. *)
Lemma ended_again h h' w :
  res_end (live h') (pipeline h' (ended h)) w
  = (Return (pipeline h' (ended h)), w).
Proof.
  assert (Hl : on_end (pipeline h' (ended h)) = [])
    by (unfold pipeline; by rewrite steps_shape).
  rewrite res_end_unlistened by done. unfold unlistened.
  destruct (pipeline h' (ended h)); simpl in *. by subst.
Qed.

Lemma ended_unmarked h : ¬ marked_hit (ended h).
Proof. unfold marked_hit. simpl. discriminate. Qed.

Lemma replayed_marked s res : marked_hit (replayed s res).
Proof.
  unfold marked_hit, replayed. simpl.
  replace (header_calls res ++ [SetAll (headers s); SetOne "X-Cache" "HIT"])%list
    with ((header_calls res ++ [SetAll (headers s)])
            ++ [SetOne "X-Cache" "HIT"])%list
    by (by rewrite <- app_assoc).
  apply last_snoc.
Qed.

Lemma stores_logged w w' evs :
  log w' = (log w ++ evs)%list →
  stores w' = (stores w ++ filter (λ ev, is_store ev = true) evs)%list.
Proof. unfold stores. intros ->. apply filter_app. Qed.

Lemma serve_cons gate i inputs (s : Server) :
  serve gate (i :: inputs) s = serve gate inputs (step gate s i).
Proof. reflexivity. Qed.

(* ===================================================================== *)
(** ** The capture / replay protocol *)
(* ===================================================================== *)


(** C4 (no-token passthrough). Whatever chain the constructor returned,
    a request without a token is handed on with the world untouched: no
    key is generated, the store is neither read nor written, and when the
    pipeline later ends the response, the request still without a token,
    nothing is captured either. *)
Theorem no_token_passthrough
    (options : Options) (gate : list Middleware)
    (req : Request) (w : World) :
  idempotency options = Return gate ∨
  SingleBackend.idempotency options = Return gate →
  token_of req = None →
  ∃ res,
    handle gate req fresh_res w = (Return (NextCalled, res), w) ∧
    ∀ h, token_of (live h) = None →
         ∃ res', res_end (live h) (pipeline h res) w = (Return res', w).
Proof.
  intros Hgate Hnone.
  assert (gate = lru_gate ∨ ∃ c, gate = redis_gate c) as [-> | [c ->]].
  { destruct Hgate as [H | H]; [by apply idempotency_Return in H|].
    left. rewrite idempotency_single in H. by injection H. }
  - eexists. split; [by apply handle_lru_no_token|].
    intros h Hh. eexists. by apply completion_lru_no_token.
  - eexists. split; [by apply handle_redis_no_token|].
    intros h Hh. eexists. by apply completion_redis_no_token.
Qed.

(** C6, as the code has it. For a request that goes through lookup and
    then store, the store listener generates the key again, from the
    request object as it is when the response ends, and writes the
    record under that key. It is the key that was looked up whenever the
    key generator gives the same key for the request as it then is, as
    it does when the pipeline has left the request as it arrived. *)
Theorem store_key_is_key_at_end
    (req : Request) (token : string) (w w1 : World) (res1 : Res) :
  (0 < LRU.capacity (cache w))%nat →
  token_of req = Some token →
  handle lru_gate req fresh_res w = (Return (NextCalled, res1), w1) →
  log w1 = (log w ++ [KeyGenerated req token;
                      CacheGet (generateCacheKey req token)])%list ∧
  ∀ h token',
    token_of (live h) = Some token' →
    ∃ res2 w2,
      res_end (live h) (pipeline h res1) w1 = (Return res2, w2) ∧
      log w2 = (log w1 ++ [KeyGenerated (live h) token';
                           CacheSet (generateCacheKey (live h) token')
                                    (recorded h)])%list ∧
      LRU.peek (generateCacheKey (live h) token') (cache w2)
        = Some (recorded h) ∧
      (generateCacheKey (live h) token' = generateCacheKey req token →
       LRU.peek (generateCacheKey req token) (cache w2) = Some (recorded h)) ∧
      (live h = req →
       generateCacheKey (live h) token' = generateCacheKey req token).
Proof.
  intros Hcap Htok Hfirst.
  rewrite (handle_lru_token req fresh_res w token Htok eq_refl) in Hfirst.
  destruct (LRU.peek _ (cache w)) as [s|] eqn:Hpeek; [done|].
  injection Hfirst as <- <-.
  split; [done|]. intros h token' Htok'.
  rewrite (completion_lru h token' _ Htok').
  eexists _, _. split; [done|]. split; [done|].
  assert (Hheld : LRU.peek (generateCacheKey (live h) token')
            (LRU.set (generateCacheKey (live h) token') (recorded h)
               (LRU.get (generateCacheKey req token) (cache w)).2)
          = Some (recorded h)).
  { apply lru_peek_set_eq. by rewrite lru_get_miss. }
  split; [exact Hheld|]. split.
  - intros Heq.
    exact (eq_ind (generateCacheKey (live h) token')
                  (λ k, LRU.peek k _ = Some (recorded h)) Hheld _ Heq).
  - intros Hlive. rewrite Hlive in Htok'. congruence.
Qed.

(** C8 (capture at most once, and only on completion). While a forwarded
    request has not completed, nothing has been stored, the content of
    the store is what it was, and a retry of the request is forwarded
    again. When the pipeline ends the response, at most one store
    happens, under the key of the request as it then is: exactly one
    when the request still carries its token; ending the same response
    again stores nothing. *)
Theorem capture_only_on_completion
    (req : Request) (token : string) (w w1 : World) (res1 : Res) :
  token_of req = Some token →
  handle lru_gate req fresh_res w = (Return (NextCalled, res1), w1) →
  stores w1 = stores w ∧
  (∀ k, LRU.peek k (cache w1) = LRU.peek k (cache w)) ∧
  (∃ res1' w1',
     handle lru_gate req fresh_res w1 = (Return (NextCalled, res1'), w1')) ∧
  ∀ h, ∃ res2 w2,
    res_end (live h) (pipeline h res1) w1 = (Return res2, w2) ∧
    stores w2
      = (stores w1
           ++ match token_of (live h) with
              | Some token' =>
                  [CacheSet (generateCacheKey (live h) token') (recorded h)]
              | None => []
              end)%list ∧
    (live h = req →
     stores w2
       = (stores w1 ++ [CacheSet (generateCacheKey req token) (recorded h)])%list) ∧
    ∀ h', res_end (live h') (pipeline h' res2) w2
          = (Return (pipeline h' res2), w2).
Proof.
  intros Htok Hfirst.
  rewrite (handle_lru_token req fresh_res w token Htok eq_refl) in Hfirst.
  destruct (LRU.peek _ (cache w)) as [s|] eqn:Hpeek; [done|].
  injection Hfirst as <- <-.
  rewrite lru_get_miss by done.
  split; [|split; [|split]].
  - erewrite stores_logged by done. apply app_nil_r.
  - done.
  - rewrite (handle_lru_token req fresh_res _ token Htok eq_refl). simpl.
    rewrite Hpeek. by eexists _, _.
  - intros h. destruct (token_of (live h)) as [token'|] eqn:Htok'.
    + eexists _, _. split; [by apply completion_lru|].
      split; [by erewrite stores_logged by done|].
      split; [|intros h'; apply ended_again].
      intros Hlive. rewrite Hlive in Htok'.
      assert (token' = token) as -> by congruence.
      erewrite stores_logged by done. by rewrite Hlive.
    + eexists _, _. split; [by apply completion_lru_no_token|].
      split; [by rewrite app_nil_r|].
      split; [|intros h'; apply ended_again].
      intros Hlive. rewrite Hlive in Htok'. congruence.
Qed.


(** C10 (a replay leaves the store alone). On a HIT the check middleware
    answers and does not call [next]: the response carries no 'end'
    listener, the trace gains a lookup and no store, every key holds what
    it held before, and ending the response changes nothing. *)
Theorem hit_does_not_store
    (req : Request) (token : string) (s : Response) (w : World) :
  token_of req = Some token →
  LRU.peek (generateCacheKey req token) (cache w) = Some s →
  ∃ res w',
    handle lru_gate req fresh_res w = (Return (NotCalled, res), w') ∧
    on_end res = [] ∧
    log w' = (log w ++ [KeyGenerated req token;
                        CacheGet (generateCacheKey req token)])%list ∧
    stores w' = stores w ∧
    (∀ k, LRU.peek k (cache w') = LRU.peek k (cache w)) ∧
    remote w' = remote w ∧
    res_end req res w' = (Return res, w').
Proof.
  intros Htok Hpeek.
  rewrite (handle_lru_token req fresh_res w token Htok eq_refl), Hpeek.
  eexists _, _. split; [done|]. simpl.
  split; [done|]. split; [done|]. split; [|split; [|done]].
  - erewrite stores_logged by done. apply app_nil_r.
  - intros k. apply lru_peek_get.
Qed.

(* ===================================================================== *)
(** ** Requests that overlap *)
(* ===================================================================== *)

Lemma arrive_lru_miss id req token s :
  token_of req = Some token →
  LRU.peek (generateCacheKey req token) (cache (world s)) = None →
  arrive lru_gate id req s =
    mkServer (logged (world s) [KeyGenerated req token;
                                CacheGet (generateCacheKey req token)])
             (<[id := res_once_end StoreInLRU (patched fresh_res)]>
                (inflight s))
             (downstream s ++ [(id, req)])%list
             (answered s).
Proof.
  intros Htok Hpeek. unfold arrive.
  rewrite (handle_lru_token req fresh_res _ token Htok eq_refl), Hpeek.
  by rewrite lru_get_miss.
Qed.

Lemma arrive_lru_hit id req token stored s :
  token_of req = Some token →
  LRU.peek (generateCacheKey req token) (cache (world s)) = Some stored →
  arrive lru_gate id req s =
    mkServer (mkWorld (LRU.get (generateCacheKey req token)
                               (cache (world s))).2
                      (remote (world s))
                      (log (world s)
                         ++ [KeyGenerated req token;
                             CacheGet (generateCacheKey req token)])%list)
             (inflight s) (downstream s)
             (answered s ++ [(id, replayed stored (patched fresh_res))])%list.
Proof.
  intros Htok Hpeek. unfold arrive.
  by rewrite (handle_lru_token req fresh_res _ token Htok eq_refl), Hpeek.
Qed.

Lemma finish_lru id h token s :
  token_of (live h) = Some token →
  inflight s !! id = Some (res_once_end StoreInLRU (patched fresh_res)) →
  finish id h s =
    mkServer (mkWorld (LRU.set (generateCacheKey (live h) token) (recorded h)
                               (cache (world s)))
                      (remote (world s))
                      (log (world s)
                         ++ [KeyGenerated (live h) token;
                             CacheSet (generateCacheKey (live h) token)
                                      (recorded h)])%list)
             (delete id (inflight s)) (downstream s)
             (answered s ++ [(id, ended h)])%list.
Proof.
  intros Htok Hin. unfold finish. rewrite Hin.
  by rewrite (completion_lru h token _ Htok).
Qed.

(** C2, as the code has it. The gate records nothing when it hands a
    request on, so of two requests with the same key the second is
    forwarded as well when it arrives before the first has completed:
    the pipeline is invoked twice, neither response is marked, and the
    store ends up with the record of the response that completed last.
    Only when the second request arrives after the first has completed
    is the pipeline invoked once, and the second request answered from
    the store. (The pipeline leaves both request objects as they
    arrived.) *)
Theorem duplicates_deduplicated_only_after_completion
    (req1 req2 : Request) (t1 t2 : string) (id1 id2 : nat)
    (h1 h2 : Handled) (s : Server) :
  id1 ≠ id2 →
  (0 < LRU.capacity (cache (world s)))%nat →
  token_of req1 = Some t1 →
  token_of req2 = Some t2 →
  generateCacheKey req1 t1 = generateCacheKey req2 t2 →
  LRU.peek (generateCacheKey req1 t1) (cache (world s)) = None →
  live h1 = req1 →
  live h2 = req2 →
  (downstream (serve lru_gate [Arrive id1 req1; Arrive id2 req2] s)
     = (downstream s ++ [(id1, req1); (id2, req2)])%list ∧
   ∃ r1 r2,
     answered (serve lru_gate [Arrive id1 req1; Arrive id2 req2;
                               Finish id1 h1; Finish id2 h2] s)
       = (answered s ++ [(id1, r1); (id2, r2)])%list ∧
     ¬ marked_hit r1 ∧ ¬ marked_hit r2 ∧
     LRU.peek (generateCacheKey req1 t1)
       (cache (world (serve lru_gate [Arrive id1 req1; Arrive id2 req2;
                                      Finish id1 h1; Finish id2 h2] s)))
       = Some (recorded h2)) ∧
  (downstream (serve lru_gate [Arrive id1 req1; Finish id1 h1;
                               Arrive id2 req2] s)
     = (downstream s ++ [(id1, req1)])%list ∧
   ∃ r1 r2,
     answered (serve lru_gate [Arrive id1 req1; Finish id1 h1;
                               Arrive id2 req2] s)
       = (answered s ++ [(id1, r1); (id2, r2)])%list ∧
     ¬ marked_hit r1 ∧ marked_hit r2 ∧
     res_statusCode r2 = statusCode (recorded h1) ∧
     sent_body r2 = Some (body (recorded h1))).
Proof.
  intros Hid Hcap Ht1 Ht2 Hkey Hpeek Hl1 Hl2. subst req1 req2.
  unfold serve. simpl.
  rewrite (arrive_lru_miss id1 (live h1) t1 s Ht1 Hpeek).
  split.
  - rewrite (arrive_lru_miss id2 (live h2) t2 _ Ht2) by (by rewrite <- Hkey).
    simpl. rewrite <- app_assoc. split; [done|].
    erewrite (finish_lru id1 h1 t1); [|done|]; last first.
    { simpl. rewrite lookup_insert_ne by done. apply lookup_insert_eq. }
    erewrite (finish_lru id2 h2 t2); [|done|]; last first.
    { simpl. rewrite lookup_delete_ne by done. apply lookup_insert_eq. }
    simpl. eexists _, _. rewrite <- app_assoc. split; [done|].
    split; [apply ended_unmarked|]. split; [apply ended_unmarked|].
    rewrite Hkey. by apply lru_peek_set_eq.
  - erewrite (finish_lru id1 h1 t1); [|done|]; last first.
    { simpl. apply lookup_insert_eq. }
    erewrite (arrive_lru_hit id2 (live h2) t2 (recorded h1)); [|done|];
      last first.
    { simpl. rewrite <- Hkey. by apply lru_peek_set_eq. }
    simpl. split; [done|]. eexists _, _. rewrite <- app_assoc.
    split; [done|]. split; [apply ended_unmarked|].
    split; [apply replayed_marked|done].
Qed.

(* ===================================================================== *)
(** ** The remote backend when it fails *)
(* ===================================================================== *)

(** C3, as the code has it. With the Redis backend, what the lookup does
    decides the request. When the lookup is rejected, so is the check
    middleware: [next] is not called and no response is sent, the request
    is neither forwarded nor answered; nothing is marked HIT. When the
    lookup finds nothing, the request is forwarded, and when the pipeline
    ends the response the outcome of the store operation is dropped: the
    response ends normally and unmarked whether the store was written or
    the operation was rejected. *)
Theorem redis_failure_behaviour
    (client : Client) (req : Request) (token : string)
    (id : nat) (s : Server) :
  token_of req = Some token →
  match getAsync client (generateCacheKey req token) redis_print
          (logged (world s) [KeyGenerated req token;
                             RemoteGet (generateCacheKey req token)]) with
  | (Throw e, w') =>
      handle (redis_gate client) req fresh_res (world s) = (Throw e, w') ∧
      arrive (redis_gate client) id req s
        = mkServer w' (inflight s) (downstream s) (answered s)
  | (Return None, w1) =>
      ∃ res1,
        handle (redis_gate client) req fresh_res (world s)
          = (Return (NextCalled, res1), w1) ∧
        ∀ h, live h = req → ∃ res2,
          res_end (live h) (pipeline h res1) w1 =
            (Return res2,
             (setAsync client (generateCacheKey req token) (recorded h)
                redis_print
                (logged w1 [KeyGenerated req token;
                            RemoteSet (generateCacheKey req token)
                                      (recorded h)])).2) ∧
          ¬ marked_hit res2
  | (Return (Some stored), w1) =>
      ∃ res,
        handle (redis_gate client) req fresh_res (world s)
          = (Return (NotCalled, res), w1) ∧
        marked_hit res
  end.
Proof.
  intros Htok.
  pose proof (handle_redis_token client req fresh_res (world s) token Htok eq_refl)
    as Hh.
  unfold arrive, logged.
  destruct (getAsync client _ _ _) as [[[stored|]|e] w'] eqn:Hget.
  - eexists. split; [exact Hh|]. apply replayed_marked.
  - eexists. split; [exact Hh|]. intros h Hlive. subst req. eexists.
    split; [by apply completion_redis|]. apply ended_unmarked.
  - split; [exact Hh|]. by rewrite Hh.
Qed.

(* ===================================================================== *)
(** ** Construction *)
(* ===================================================================== *)

(** C5 (unknown backend). When [options.cacheEngine] is neither ['lru']
    nor ['redis'], the constructor throws a [TypeError] and returns no
    chain, so no request is ever handled by it. *)
Theorem unknown_engine_rejected (options : Options) :
  cacheEngine options ≠ JsString "lru" →
  cacheEngine options ≠ JsString "redis" →
  idempotency options
    = Throw (TypeError ("Unknown cacheEngine "
                        +:+ js_to_string (cacheEngine options)
                        +:+ ". Must be either " +:+ quoted "lru"
                        +:+ " or " +:+ quoted "redis" +:+ ".")) ∧
  ∀ gate, idempotency options ≠ Return gate.
Proof.
  intros Hlru Hredis.
  assert (Hthrow : idempotency options
    = Throw (TypeError ("Unknown cacheEngine "
                        +:+ js_to_string (cacheEngine options)
                        +:+ ". Must be either " +:+ quoted "lru"
                        +:+ " or " +:+ quoted "redis" +:+ "."))).
  { unfold idempotency.
    destruct (cacheEngine options) as [| | b | n | e]; try reflexivity.
    unfold equals_literal.
    rewrite !bool_decide_eq_false_2 by congruence. reflexivity. }
  split; [exact Hthrow|]. intros gate. by rewrite Hthrow.
Qed.

(* ===================================================================== *)
(** ** Further properties of the constructor and of the local chain *)
(* ===================================================================== *)

(** X1. The constructor returns a chain exactly when the engine is
    ['lru'], or ['redis'] with an [options.redis] to read the client
    from. With ['lru'] the chain is the local one whatever
    [options.redis] holds; with ['redis'] it is the remote one over
    [options.redis.client]. In every other case it throws a [TypeError]. *)
Theorem idempotency_outcomes (options : Options) :
  ((∃ gate, idempotency options = Return gate) ↔
   (cacheEngine options = JsString "lru" ∨
    (cacheEngine options = JsString "redis" ∧ is_Some (redis options)))) ∧
  (cacheEngine options = JsString "lru" →
   idempotency options = Return lru_gate) ∧
  (∀ r, cacheEngine options = JsString "redis" → redis options = Some r →
        idempotency options = Return (redis_gate (client r))) ∧
  ((∀ gate, idempotency options ≠ Return gate) →
   ∃ message, idempotency options = Throw (TypeError message)).
Proof.
  destruct options as [engine r]. simpl.
  assert (Hlru : engine = JsString "lru" →
                 idempotency (mkOptions engine r) = Return lru_gate).
  { by intros ->. }
  assert (Hredis : ∀ r', engine = JsString "redis" → r = Some r' →
            idempotency (mkOptions engine r) = Return (redis_gate (client r'))).
  { by intros r' -> ->. }
  split; [|split; [done|split; [done|]]].
  - split.
    + intros [gate Hgate]. unfold idempotency in Hgate. simpl in Hgate.
      destruct engine as [| | b | n | e]; simpl in Hgate; try discriminate.
      destruct (bool_decide (e = "lru")) eqn:Hl; simpl in Hgate.
      { apply bool_decide_eq_true in Hl as ->. by left. }
      destruct (bool_decide (e = "redis")) eqn:Hr; simpl in Hgate;
        [|discriminate].
      apply bool_decide_eq_true in Hr as ->. right.
      destruct r; [by split|discriminate].
    + intros [-> | [-> [r' ->]]]; eexists; [by apply Hlru | by apply Hredis].
  - intros Hno.
    destruct (idempotency (mkOptions engine r)) as [gate|[m|m]] eqn:H.
    + by destruct (Hno gate).
    + by eexists.
    + unfold idempotency in H. simpl in H.
      repeat case_match; discriminate.
Qed.

(** X2. The single-backend constructor never throws and never looks at
    its options: whatever they are, its chain handles every request, on
    every response object and in every world, exactly as the chain that
    [src/index.js] builds for ['lru'] does. *)
Theorem single_backend_is_local_chain
    (options : Options) (r : option RedisOptions) (req : Request)
    (res : Res) (w : World) :
  ∃ single local,
    SingleBackend.idempotency options = Return single ∧
    idempotency (mkOptions (JsString "lru") r) = Return local ∧
    handle single req res w = handle local req res w.
Proof. by eexists _, _. Qed.


(** X4. Once a record is in the store, any number of requests for its key
    arriving one after the other are all answered with the same replay;
    none of them reaches the pipeline and the record stays in place. *)
Theorem replay_repeats
    (req : Request) (token : string) (stored : Response)
    (ids : list nat) (s : Server) :
  token_of req = Some token →
  LRU.peek (generateCacheKey req token) (cache (world s)) = Some stored →
  downstream (serve lru_gate ((λ id, Arrive id req) <$> ids) s)
    = downstream s ∧
  inflight (serve lru_gate ((λ id, Arrive id req) <$> ids) s) = inflight s ∧
  answered (serve lru_gate ((λ id, Arrive id req) <$> ids) s)
    = (answered s
         ++ ((λ id, (id, replayed stored (patched fresh_res))) <$> ids))%list ∧
  LRU.peek (generateCacheKey req token)
           (cache (world (serve lru_gate ((λ id, Arrive id req) <$> ids) s)))
    = Some stored.
Proof.
  intros Htok. revert s.
  induction ids as [|id ids IH]; intros s Hpeek.
  - simpl. by rewrite app_nil_r.
  - rewrite fmap_cons, !serve_cons. unfold step.
    rewrite (arrive_lru_hit id req token stored s Htok Hpeek).
    edestruct IH as (Hd & Hi & Ha & Hp);
      [|rewrite Hd, Hi, Ha, Hp; simpl; by rewrite <- app_assoc].
    simpl. by rewrite lru_peek_get.
Qed.

(** X5. The store listener writes under the key of its own request only:
    after a request has been forwarded and completed, a record found
    under any other key was there before, unchanged; so a request with
    another key that would have been forwarded before is forwarded still. *)
Theorem completion_writes_own_key_only
    (req1 req2 : Request) (t1 t2 : string) (h : Handled)
    (w w1 w2 : World) (res1 res2 : Res) :
  token_of req1 = Some t1 →
  token_of req2 = Some t2 →
  generateCacheKey req1 t1 ≠ generateCacheKey req2 t2 →
  live h = req1 →
  handle lru_gate req1 fresh_res w = (Return (NextCalled, res1), w1) →
  res_end (live h) (pipeline h res1) w1 = (Return res2, w2) →
  (∀ found, LRU.peek (generateCacheKey req2 t2) (cache w2) = Some found →
            LRU.peek (generateCacheKey req2 t2) (cache w) = Some found) ∧
  (LRU.peek (generateCacheKey req2 t2) (cache w) = None →
   ∃ res' w',
     handle lru_gate req2 fresh_res w2 = (Return (NextCalled, res'), w')).
Proof.
  intros Ht1 Ht2 Hne Hlive Hfirst Hdone. subst req1.
  rewrite (handle_lru_token (live h) fresh_res w t1 Ht1 eq_refl) in Hfirst.
  destruct (LRU.peek _ (cache w)) as [s|] eqn:Hpeek; [done|].
  injection Hfirst as <- <-.
  rewrite (completion_lru h t1 _ Ht1) in Hdone.
  injection Hdone as <- <-.
  assert (Hother : ∀ found,
    LRU.peek (generateCacheKey req2 t2)
             (LRU.set (generateCacheKey (live h) t1) (recorded h)
                (LRU.get (generateCacheKey (live h) t1) (cache w)).2)
      = Some found →
    LRU.peek (generateCacheKey req2 t2) (cache w) = Some found).
  { intros found. rewrite lru_get_miss by done. by apply lru_peek_set_other. }
  split; [exact Hother|]. intros Hmiss.
  rewrite (handle_lru_token req2 fresh_res _ t2 Ht2 eq_refl).
  match goal with
  | |- context [match ?p with Some _ => _ | None => _ end] =>
      destruct p as [found|] eqn:Hafter
  end.
  - apply Hother in Hafter. congruence.
  - by eexists _, _.
Qed.

(** X6. The local chain always settles a request, one way or the other:
    either it hands the request on, with the status, the headers and the
    body of the response untouched and exactly its own 'end' listener
    registered, or it answers it itself, marked [X-Cache: HIT], with no
    listener registered. It never throws. *)
Theorem local_chain_forwards_or_replays (req : Request) (w : World) :
  (∃ res' w',
     handle lru_gate req fresh_res w = (Return (NextCalled, res'), w') ∧
     res' = res_once_end StoreInLRU (patched fresh_res) ∧
     ¬ marked_hit res' ∧ sent_body res' = None ∧
     ∀ k, LRU.peek k (cache w') = LRU.peek k (cache w)) ∨
  (∃ res' w' token stored,
     handle lru_gate req fresh_res w = (Return (NotCalled, res'), w') ∧
     token_of req = Some token ∧
     LRU.peek (generateCacheKey req token) (cache w) = Some stored ∧
     res' = replayed stored (patched fresh_res) ∧
     marked_hit res' ∧ on_end res' = []).
Proof.
  destruct (token_of req) as [token|] eqn:Htok.
  - rewrite (handle_lru_token req fresh_res w token Htok eq_refl).
    destruct (LRU.peek _ (cache w)) as [stored|] eqn:Hpeek.
    + right. eexists _, _, token, stored.
      split; [done|]. split; [done|]. split; [done|]. split; [done|].
      split; [apply replayed_marked|done].
    + left. eexists _, _. split; [done|]. split; [done|].
      split; [|split; [done|]].
      * unfold marked_hit. simpl. discriminate.
      * intros k. simpl. apply lru_peek_get.
  - left. rewrite (handle_lru_no_token req fresh_res w Htok).
    eexists _, _. split; [done|]. split; [done|].
    split; [|done]. unfold marked_hit. simpl. discriminate.
Qed.

(** What holds of a server that runs the local chain. *)
Record local_inv (N : nat) (s : Server) : Prop := LocalInv {
  li_remote   : remote (world s) = ∅;
  li_trace    : Forall (λ ev, is_remote ev = false) (log (world s));
  li_wf       : LRU.wf (cache (world s));
  li_capacity : LRU.capacity (cache (world s)) = N;
  li_inflight : map_Forall
                  (λ id res,
                     res = res_once_end StoreInLRU (patched fresh_res) ∧
                     ∃ req, (id, req) ∈ downstream s)
                  (inflight s)
}.

Lemma local_inv_boot N : local_inv N (boot N).
Proof.
  split; simpl; first [done | apply lru_wf_empty | apply map_Forall_empty].
Qed.

Lemma local_inv_step N s i :
  local_inv N s → local_inv N (step lru_gate s i).
Proof.
  intros [Hr Ht Hwf Hcap Hin]. destruct i as [id req | id h]; simpl.
  - assert (Hgrow : map_Forall
              (λ id0 res,
                 res = res_once_end StoreInLRU (patched fresh_res) ∧
                 ∃ req0, (id0, req0) ∈ (downstream s ++ [(id, req)])%list)
              (<[id := res_once_end StoreInLRU (patched fresh_res)]>
                 (inflight s))).
    { apply map_Forall_insert_2.
      - split; [done|]. exists req. apply elem_of_app. right. left.
      - intros id0 res Hid0. destruct (Hin id0 res Hid0) as [-> [req0 Hreq0]].
        split; [done|]. exists req0. apply elem_of_app. by left. }
    unfold arrive. destruct (token_of req) as [token|] eqn:Htok.
    + rewrite (handle_lru_token req fresh_res _ token Htok eq_refl).
      destruct (LRU.peek _ (cache (world s))) as [stored|] eqn:Hpeek;
        (split; simpl;
         [done
         |apply Forall_app; split; [done | by repeat constructor]
         |by apply lru_wf_get
         |by rewrite lru_capacity_get
         |]); done.
    + rewrite (handle_lru_no_token req fresh_res _ Htok).
      by split; simpl.
  - unfold finish. destruct (inflight s !! id) as [res|] eqn:Hid; [|done].
    destruct (Hin id res Hid) as [-> _].
    destruct (token_of (live h)) as [token|] eqn:Htok.
    + rewrite (completion_lru h token _ Htok).
      split; simpl.
      * done.
      * apply Forall_app; split; [done | by repeat constructor].
      * by apply lru_wf_set.
      * done.
      * by apply map_Forall_delete.
    + rewrite (completion_lru_no_token h _ Htok).
      split; simpl; try done. by apply map_Forall_delete.
Qed.

(** X7. A server that runs the local chain, whatever arrives and
    completes and in whatever order: the remote store is never written
    and no remote operation is ever issued; the shared cache never holds
    more entries than its capacity; and every response in flight belongs
    to a request with its id that was handed to the pipeline, and
    carries exactly one 'end' listener, the store listener. *)
Theorem local_server_invariant (N : nat) (inputs : list Input) :
  remote (world (serve lru_gate inputs (boot N))) = ∅ ∧
  Forall (λ ev, is_remote ev = false)
         (log (world (serve lru_gate inputs (boot N)))) ∧
  (LRU.size (cache (world (serve lru_gate inputs (boot N)))) ≤ N)%nat ∧
  ∀ id res,
    inflight (serve lru_gate inputs (boot N)) !! id = Some res →
    on_end res = [StoreInLRU] ∧
    ∃ req, (id, req) ∈ downstream (serve lru_gate inputs (boot N)).
Proof.
  assert (Hinv : local_inv N (serve lru_gate inputs (boot N))).
  { generalize (local_inv_boot N). generalize (boot N).
    induction inputs as [|i inputs IH]; intros s Hs; [done|].
    rewrite serve_cons. by apply IH, local_inv_step. }
  destruct Hinv as [Hr Ht Hwf Hcap Hin].
  split; [done|]. split; [done|]. split.
  - destruct Hwf as [Hsize _ _ _]. rewrite Hcap in Hsize. exact Hsize.
  - intros id res Hid. destruct (Hin id res Hid) as [-> Hreq]. by split.
Qed.

(** The steps that assign [res.body] or [res.headers]. *)
Definition assigns (st : Step) : bool :=
  match st with AssignBody _ | AssignHeaders _ => true | _ => false end.

Lemma plain_steps_record (sts : list Step) res :
  Forall (λ st, assigns st = false) sts →
  res_body (foldl step_res res sts) = res_body res ∧
  res_headers (foldl step_res res sts) = res_headers res.
Proof.
  revert res. induction sts as [|st sts IH]; intros res Hplain; [done|].
  apply Forall_cons in Hplain as [Hst Hsts]. simpl.
  destruct (IH (step_res res st) Hsts) as [-> ->].
  by destruct st.
Qed.

(** X13. A pipeline that answers through [res.status], [res.set] and
    [res.send] alone, never assigning [res.body] or [res.headers], is
    recorded with its status and with nothing else: whatever body it
    sent and whatever headers it set, the replay of its response sends
    no body and sets no header but [X-Cache]. *)
Theorem plain_pipeline_replays_bare
    (req : Request) (token : string) (h : Handled)
    (w w1 w2 : World) (res1 res2 : Res) :
  (0 < LRU.capacity (cache w))%nat →
  token_of req = Some token →
  live h = req →
  Forall (λ st, assigns st = false) (steps h) →
  handle lru_gate req fresh_res w = (Return (NextCalled, res1), w1) →
  res_end (live h) (pipeline h res1) w1 = (Return res2, w2) →
  ∃ res' w',
    handle lru_gate req fresh_res w2 = (Return (NotCalled, res'), w') ∧
    res_statusCode res' = statusCode (recorded h) ∧
    header_calls res' = [SetAll None; SetOne "X-Cache" "HIT"] ∧
    sent_body res' = Some None.
Proof.
  intros Hcap Htok Hlive Hplain Hfirst Hdone. subst req.
  rewrite (handle_lru_token (live h) fresh_res w token Htok eq_refl) in Hfirst.
  destruct (LRU.peek _ (cache w)) as [s|] eqn:Hpeek; [done|].
  injection Hfirst as <- <-.
  rewrite (completion_lru h token _ Htok) in Hdone.
  injection Hdone as <- <-.
  rewrite (handle_lru_token (live h) fresh_res _ token Htok eq_refl). simpl.
  rewrite lru_peek_set_eq by (by rewrite lru_get_miss).
  destruct (plain_steps_record (steps h) fresh_res Hplain) as [Hb Hh].
  eexists _, _. split; [done|]. simpl.
  unfold recorded, captured, pipeline. simpl. by rewrite Hb, Hh.
Qed.

End GateFacts.

(* ===================================================================== *)
(** ** Further properties of the remote chain *)
(* ===================================================================== *)

Section MoreRemote.
Context {KG : KeyGenerator}.
Implicit Types (req : Request) (res : Res) (w : World) (h : Handled).

(** X10. When the store operation of the service is rejected while its
    lookup finds nothing, idempotency is lost without a sign: the first
    request is forwarded and completes unmarked, nothing is recorded, and
    the retry is handed to the pipeline again. *)
Theorem rejected_store_loses_replay
    (client : Client) (req : Request) (token : string) (id1 id2 : nat)
    (h : Handled) (s : Server) :
  token_of req = Some token →
  live h = req →
  (∀ w, getAsync client (generateCacheKey req token) redis_print w
        = (Return None, w)) →
  (∀ v w, ∃ e, setAsync client (generateCacheKey req token) v redis_print w
               = (Throw e, w)) →
  downstream (serve (redis_gate client)
                    [Arrive id1 req; Finish id1 h; Arrive id2 req] s)
    = (downstream s ++ [(id1, req); (id2, req)])%list ∧
  remote (world (serve (redis_gate client)
                       [Arrive id1 req; Finish id1 h; Arrive id2 req] s))
    = remote (world s) ∧
  cache (world (serve (redis_gate client)
                      [Arrive id1 req; Finish id1 h; Arrive id2 req] s))
    = cache (world s) ∧
  ∃ r1,
    answered (serve (redis_gate client)
                    [Arrive id1 req; Finish id1 h; Arrive id2 req] s)
      = (answered s ++ [(id1, r1)])%list ∧
    ¬ marked_hit r1.
Proof.
  intros Htok Hlive Hget Hset. subst req.
  assert (Harrive : ∀ id s0,
    arrive (redis_gate client) id (live h) s0 =
      mkServer (logged (world s0)
                  [KeyGenerated (live h) token;
                   RemoteGet (generateCacheKey (live h) token)])
               (<[id := res_once_end (StoreInRedis client) (patched fresh_res)]>
                  (inflight s0))
               (downstream s0 ++ [(id, live h)])%list (answered s0)).
  { intros id s0. unfold arrive.
    rewrite (handle_redis_token client (live h) fresh_res (world s0) token
               Htok eq_refl).
    by rewrite Hget. }
  assert (Hfinish : ∀ id s0,
    inflight s0 !! id
      = Some (res_once_end (StoreInRedis client) (patched fresh_res)) →
    finish id h s0 =
      mkServer (logged (world s0)
                  [KeyGenerated (live h) token;
                   RemoteSet (generateCacheKey (live h) token) (recorded h)])
               (delete id (inflight s0)) (downstream s0)
               (answered s0 ++ [(id, ended h)])%list).
  { intros id s0 Hin. unfold finish. rewrite Hin.
    rewrite (completion_redis client h token _ Htok).
    match goal with |- context [setAsync client ?k ?v redis_print ?W] =>
      destruct (Hset v W) as [e ->]
    end. done. }
  rewrite !serve_cons. unfold step, serve. simpl foldl.
  rewrite (Harrive id1 s).
  rewrite Hfinish by (simpl; apply lookup_insert_eq).
  rewrite Harrive. simpl. rewrite <- app_assoc.
  split; [done|]. split; [done|]. split; [done|].
  eexists. split; [done|]. apply ended_unmarked.
Qed.

Record remote_inv (client : Client) (N : nat) (s : Server) : Prop := RemoteInv {
  ri_cache    : cache (world s) = LRU.empty N;
  ri_trace    : Forall (λ ev, is_local ev = false) (log (world s));
  ri_inflight : map_Forall
                  (λ _ res,
                     res = res_once_end (StoreInRedis client) (patched fresh_res))
                  (inflight s)
}.

Lemma remote_inv_step client N s i :
  remote_only client →
  remote_inv client N s → remote_inv client N (step (redis_gate client) s i).
Proof.
  intros [Hget Hset] [Hc Ht Hin]. destruct i as [id req | id h]; simpl.
  - unfold arrive. destruct (token_of req) as [token|] eqn:Htok.
    + rewrite (handle_redis_token client req fresh_res _ token Htok eq_refl).
      match goal with |- context [getAsync client ?k redis_print ?W] =>
        destruct (Hget k redis_print W) as [Hc' Hl'];
        destruct (getAsync client k redis_print W) as [[[stored|]|e] w'] eqn:Hg
      end; simpl in Hc', Hl';
        (split; simpl;
         [by rewrite Hc'
         |rewrite Hl'; apply Forall_app; split; [done | by repeat constructor]
         |]); try done.
      by apply map_Forall_insert_2.
    + rewrite (handle_redis_no_token client req fresh_res _ Htok).
      split; simpl; try done.
      by apply map_Forall_insert_2.
  - unfold finish. destruct (inflight s !! id) as [res|] eqn:Hid; [|done].
    rewrite (Hin id res Hid).
    destruct (token_of (live h)) as [token|] eqn:Htok.
    + rewrite (completion_redis client h token _ Htok).
      match goal with |- context [setAsync client ?k ?v redis_print ?W] =>
        destruct (Hset k v redis_print W) as [Hc' Hl']
      end. simpl in Hc', Hl'.
      split; simpl.
      * by rewrite Hc'.
      * rewrite Hl'. apply Forall_app; split; [done | by repeat constructor].
      * by apply map_Forall_delete.
    + rewrite (completion_redis_no_token client h _ Htok).
      split; simpl; try done. by apply map_Forall_delete.
Qed.

(** X11. A server that runs the remote chain over a client that works on
    the service only never uses the local cache: whatever arrives and
    completes, no [cache.get] or [cache.set] is ever issued and the
    local cache stays empty. *)
Theorem remote_server_leaves_cache
    (client : Client) (N : nat) (inputs : list Input) :
  remote_only client →
  cache (world (serve (redis_gate client) inputs (boot N))) = LRU.empty N ∧
  Forall (λ ev, is_local ev = false)
         (log (world (serve (redis_gate client) inputs (boot N)))).
Proof.
  intros Hclient.
  assert (Hinv : remote_inv client N (serve (redis_gate client) inputs (boot N))).
  { assert (Hboot : remote_inv client N (boot N)).
    { split; simpl; [done | done | apply map_Forall_empty]. }
    revert Hboot. generalize (boot N).
    induction inputs as [|i inputs IH]; intros s Hs; [done|].
    rewrite serve_cons. by apply IH, remote_inv_step. }
  by destruct Hinv as [Hc Ht _].
Qed.

End MoreRemote.

(* ===================================================================== *)
(** ** The properties at work on sample requests *)
(* ===================================================================== *)

#[local] Instance example_keys : KeyGenerator := compositeKey.




Lemma no_token_passthrough_witness :
  ∃ res,
    handle lru_gate plain_request fresh_res (world first_served)
      = (Return (NextCalled, res), world first_served) ∧
    ∀ h, token_of (live h) = None →
         ∃ res', res_end (live h) (pipeline h res) (world first_served)
                 = (Return res', world first_served).
Proof.
  apply (no_token_passthrough (mkOptions (JsString "lru") None)).
  - left. reflexivity.
  - reflexivity.
Defined.

Lemma store_key_is_key_at_end_witness :
  log (world (serve lru_gate [Arrive 1 order_request] (boot 2)))
    = (log (world (boot 2))
         ++ [KeyGenerated order_request "tok-1";
             CacheGet (generateCacheKey order_request "tok-1")])%list ∧
  ∀ h token',
    token_of (live h) = Some token' →
    ∃ res2 w2,
      res_end (live h)
              (pipeline h (res_once_end StoreInLRU (patched fresh_res)))
              (world (serve lru_gate [Arrive 1 order_request] (boot 2)))
        = (Return res2, w2) ∧
      log w2 = (log (world (serve lru_gate [Arrive 1 order_request] (boot 2)))
                  ++ [KeyGenerated (live h) token';
                      CacheSet (generateCacheKey (live h) token')
                               (recorded h)])%list ∧
      LRU.peek (generateCacheKey (live h) token') (cache w2)
        = Some (recorded h) ∧
      (generateCacheKey (live h) token'
         = generateCacheKey order_request "tok-1" →
       LRU.peek (generateCacheKey order_request "tok-1") (cache w2)
         = Some (recorded h)) ∧
      (live h = order_request →
       generateCacheKey (live h) token'
         = generateCacheKey order_request "tok-1").
Proof.
  apply (store_key_is_key_at_end order_request "tok-1" (world (boot 2))).
  - simpl. lia.
  - reflexivity.
  - reflexivity.
Defined.

(** C6 as the spec states it does not hold. The handler sits in a router
    mounted at [/orders], which has rewritten the request's path by the
    time the response ends: the record is written under another key than
    the one that was looked up, and the key that was looked up still
    holds nothing. *)
Lemma store_key_differs_from_lookup_key :
  log (world (serve lru_gate
                    [Arrive 1 order_request; Finish 1 order_created_in_router]
                    (boot 2)))
    = [KeyGenerated order_request "tok-1";
       CacheGet "4:POST7:/orders5:tok-1";
       KeyGenerated (live order_created_in_router) "tok-1";
       CacheSet "4:POST1:/5:tok-1" (recorded order_created_in_router)] ∧
  "4:POST7:/orders5:tok-1" ≠ "4:POST1:/5:tok-1" ∧
  LRU.peek "4:POST7:/orders5:tok-1"
    (cache (world (serve lru_gate
                     [Arrive 1 order_request; Finish 1 order_created_in_router]
                     (boot 2))))
    = None ∧
  downstream (serve lru_gate
                    [Arrive 1 order_request; Finish 1 order_created_in_router;
                     Arrive 2 order_request] (boot 2))
    = [(1, order_request); (2, order_request)].
Proof.
  split; [reflexivity|]. split; [discriminate|]. split; reflexivity.
Qed.

Lemma capture_only_on_completion_witness :
  stores (world (serve lru_gate [Arrive 1 order_request] (boot 2)))
    = stores (world (boot 2)) ∧
  (∀ k, LRU.peek k (cache (world (serve lru_gate [Arrive 1 order_request]
                                        (boot 2))))
        = LRU.peek k (cache (world (boot 2)))) ∧
  (∃ res1' w1',
     handle lru_gate order_request fresh_res
            (world (serve lru_gate [Arrive 1 order_request] (boot 2)))
       = (Return (NextCalled, res1'), w1')) ∧
  ∀ h, ∃ res2 w2,
    res_end (live h)
            (pipeline h (res_once_end StoreInLRU (patched fresh_res)))
            (world (serve lru_gate [Arrive 1 order_request] (boot 2)))
      = (Return res2, w2) ∧
    stores w2
      = (stores (world (serve lru_gate [Arrive 1 order_request] (boot 2)))
           ++ match token_of (live h) with
              | Some token' =>
                  [CacheSet (generateCacheKey (live h) token') (recorded h)]
              | None => []
              end)%list ∧
    (live h = order_request →
     stores w2
       = (stores (world (serve lru_gate [Arrive 1 order_request] (boot 2)))
            ++ [CacheSet (generateCacheKey order_request "tok-1")
                         (recorded h)])%list) ∧
    ∀ h', res_end (live h') (pipeline h' res2) w2
          = (Return (pipeline h' res2), w2).
Proof.
  apply (capture_only_on_completion order_request "tok-1" (world (boot 2))).
  - reflexivity.
  - reflexivity.
Defined.


Lemma hit_does_not_store_witness :
  ∃ res w',
    handle lru_gate order_request fresh_res (world first_served)
      = (Return (NotCalled, res), w') ∧
    on_end res = [] ∧
    log w' = (log (world first_served)
                ++ [KeyGenerated order_request "tok-1";
                    CacheGet (generateCacheKey order_request "tok-1")])%list ∧
    stores w' = stores (world first_served) ∧
    (∀ k, LRU.peek k (cache w') = LRU.peek k (cache (world first_served))) ∧
    remote w' = remote (world first_served) ∧
    res_end order_request res w' = (Return res, w').
Proof.
  apply (hit_does_not_store order_request "tok-1" (recorded order_created)).
  - reflexivity.
  - reflexivity.
Defined.

(** C2 as the spec states it does not hold: two requests with the same
    key that arrive before either completes are both handed to the
    pipeline, and neither gets a replay. *)
Lemma concurrent_duplicates_both_forwarded :
  downstream (serve lru_gate overlapping (boot 2))
    = [(1, order_request); (2, order_request)] ∧
  length (downstream (serve lru_gate overlapping (boot 2))) ≠ 1 ∧
  Forall (λ a, ¬ marked_hit a.2) (answered (serve lru_gate overlapping (boot 2))).
Proof.
  split; [reflexivity|]. split; [vm_compute; lia|].
  vm_compute. repeat constructor; intros H; discriminate H.
Qed.

Lemma duplicates_deduplicated_only_after_completion_witness :
  (downstream (serve lru_gate [Arrive 1 order_request; Arrive 2 order_request]
                     (boot 2))
     = (downstream (boot 2) ++ [(1, order_request); (2, order_request)])%list ∧
   ∃ r1 r2,
     answered (serve lru_gate [Arrive 1 order_request; Arrive 2 order_request;
                               Finish 1 order_created; Finish 2 order_failed]
                     (boot 2))
       = (answered (boot 2) ++ [(1, r1); (2, r2)])%list ∧
     ¬ marked_hit r1 ∧ ¬ marked_hit r2 ∧
     LRU.peek (generateCacheKey order_request "tok-1")
       (cache (world (serve lru_gate
                        [Arrive 1 order_request; Arrive 2 order_request;
                         Finish 1 order_created; Finish 2 order_failed]
                        (boot 2))))
       = Some (recorded order_failed)) ∧
  (downstream (serve lru_gate [Arrive 1 order_request; Finish 1 order_created;
                               Arrive 2 order_request] (boot 2))
     = (downstream (boot 2) ++ [(1, order_request)])%list ∧
   ∃ r1 r2,
     answered (serve lru_gate [Arrive 1 order_request; Finish 1 order_created;
                               Arrive 2 order_request] (boot 2))
       = (answered (boot 2) ++ [(1, r1); (2, r2)])%list ∧
     ¬ marked_hit r1 ∧ marked_hit r2 ∧
     res_statusCode r2 = statusCode (recorded order_created) ∧
     sent_body r2 = Some (body (recorded order_created))).
Proof.
  apply (duplicates_deduplicated_only_after_completion
           order_request order_request "tok-1" "tok-1" 1 2
           order_created order_failed (boot 2)).
  - lia.
  - simpl. lia.
  - reflexivity.
  - reflexivity.
  - reflexivity.
  - reflexivity.
  - reflexivity.
  - reflexivity.
Defined.

(** C3 as the spec states it does not hold: with the lookup rejected,
    the request is not forwarded, and it is not answered either. *)
Lemma lookup_failure_blocks_request :
  getAsync redis_down (generateCacheKey order_request "tok-1") redis_print
    (logged (world (boot 2))
       [KeyGenerated order_request "tok-1";
        RemoteGet (generateCacheKey order_request "tok-1")])
    = (Throw (ReplyError "connection refused"),
       logged (world (boot 2))
         [KeyGenerated order_request "tok-1";
          RemoteGet (generateCacheKey order_request "tok-1")]) ∧
  (∀ res w', handle (redis_gate redis_down) order_request fresh_res
                    (world (boot 2))
             ≠ (Return (NextCalled, res), w')) ∧
  downstream (serve (redis_gate redis_down) [Arrive 1 order_request] (boot 2))
    = [] ∧
  answered (serve (redis_gate redis_down) [Arrive 1 order_request] (boot 2))
    = [] ∧
  inflight (serve (redis_gate redis_down) [Arrive 1 order_request] (boot 2))
    = ∅.
Proof.
  split; [reflexivity|]. split; [|by repeat split].
  intros res w'. discriminate.
Qed.

Lemma redis_failure_behaviour_witness :
  handle (redis_gate redis_down) order_request fresh_res (world (boot 2))
    = (Throw (ReplyError "connection refused"),
       logged (world (boot 2))
         [KeyGenerated order_request "tok-1";
          RemoteGet (generateCacheKey order_request "tok-1")]) ∧
  arrive (redis_gate redis_down) 1 order_request (boot 2)
    = mkServer (logged (world (boot 2))
                  [KeyGenerated order_request "tok-1";
                   RemoteGet (generateCacheKey order_request "tok-1")])
               (inflight (boot 2)) (downstream (boot 2)) (answered (boot 2)).
Proof.
  apply (redis_failure_behaviour redis_down order_request "tok-1" 1 (boot 2)).
  reflexivity.
Defined.

Lemma unknown_engine_rejected_witness :
  idempotency (mkOptions (JsString "memcached") None)
    = Throw (TypeError ("Unknown cacheEngine memcached. Must be either "
                        +:+ quoted "lru" +:+ " or " +:+ quoted "redis" +:+ ".")) ∧
  ∀ gate, idempotency (mkOptions (JsString "memcached") None) ≠ Return gate.
Proof.
  apply (unknown_engine_rejected (mkOptions (JsString "memcached") None));
    simpl; congruence.
Defined.

Lemma idempotency_outcomes_witness :
  idempotency (mkOptions (JsString "redis") (Some (mkRedisOptions redis_down)))
  = Return (redis_gate redis_down).
Proof.
  apply (proj1 (proj2 (proj2 (idempotency_outcomes
    (mkOptions (JsString "redis") (Some (mkRedisOptions redis_down))))))
    (mkRedisOptions redis_down)); reflexivity.
Defined.


Lemma replay_repeats_witness :
  downstream (serve lru_gate ((λ id, Arrive id order_request) <$> [2; 3; 4])
                    first_served)
    = downstream first_served ∧
  inflight (serve lru_gate ((λ id, Arrive id order_request) <$> [2; 3; 4])
                  first_served)
    = inflight first_served ∧
  answered (serve lru_gate ((λ id, Arrive id order_request) <$> [2; 3; 4])
                  first_served)
    = (answered first_served
         ++ ((λ id, (id, replayed (recorded order_created) (patched fresh_res)))
               <$> [2; 3; 4]))%list ∧
  LRU.peek (generateCacheKey order_request "tok-1")
           (cache (world (serve lru_gate
                            ((λ id, Arrive id order_request) <$> [2; 3; 4])
                            first_served)))
    = Some (recorded order_created).
Proof.
  apply (replay_repeats order_request "tok-1" (recorded order_created)
           [2; 3; 4] first_served);
    reflexivity.
Defined.

Lemma completion_writes_own_key_only_witness :
  (∀ found,
     LRU.peek (generateCacheKey refund_request "tok-1")
              (cache (world first_served)) = Some found →
     LRU.peek (generateCacheKey refund_request "tok-1")
              (cache (world (boot 2))) = Some found) ∧
  (LRU.peek (generateCacheKey refund_request "tok-1")
            (cache (world (boot 2))) = None →
   ∃ res' w',
     handle lru_gate refund_request fresh_res (world first_served)
       = (Return (NextCalled, res'), w')).
Proof.
  eapply (completion_writes_own_key_only order_request refund_request
            "tok-1" "tok-1" order_created (world (boot 2))).
  - reflexivity.
  - reflexivity.
  - by vm_compute.
  - reflexivity.
  - reflexivity.
  - reflexivity.
Defined.

Lemma plain_pipeline_replays_bare_witness :
  ∃ res' w',
    handle lru_gate order_request fresh_res (world first_served)
      = (Return (NotCalled, res'), w') ∧
    res_statusCode res' = statusCode (recorded order_created) ∧
    header_calls res' = [SetAll None; SetOne "X-Cache" "HIT"] ∧
    sent_body res' = Some None.
Proof.
  eapply (plain_pipeline_replays_bare order_request "tok-1" order_created
            (world (boot 2))).
  - simpl. lia.
  - reflexivity.
  - reflexivity.
  - by repeat constructor.
  - reflexivity.
  - reflexivity.
Defined.

Lemma rejected_store_loses_replay_witness :
  downstream (serve (redis_gate redis_write_refused)
                    [Arrive 1 order_request; Finish 1 order_created;
                     Arrive 2 order_request] (boot 2))
    = (downstream (boot 2) ++ [(1, order_request); (2, order_request)])%list ∧
  remote (world (serve (redis_gate redis_write_refused)
                       [Arrive 1 order_request; Finish 1 order_created;
                        Arrive 2 order_request] (boot 2)))
    = remote (world (boot 2)) ∧
  cache (world (serve (redis_gate redis_write_refused)
                      [Arrive 1 order_request; Finish 1 order_created;
                       Arrive 2 order_request] (boot 2)))
    = cache (world (boot 2)) ∧
  ∃ r1,
    answered (serve (redis_gate redis_write_refused)
                    [Arrive 1 order_request; Finish 1 order_created;
                     Arrive 2 order_request] (boot 2))
      = (answered (boot 2) ++ [(1, r1)])%list ∧
    ¬ marked_hit r1.
Proof.
  apply (rejected_store_loses_replay redis_write_refused order_request "tok-1"
           1 2 order_created (boot 2)).
  - reflexivity.
  - reflexivity.
  - intros w. reflexivity.
  - intros v w. eexists. reflexivity.
Defined.

Lemma remote_server_leaves_cache_witness :
  cache (world (serve (redis_gate redis_write_refused) overlapping (boot 2)))
    = LRU.empty 2 ∧
  Forall (λ ev, is_local ev = false)
         (log (world (serve (redis_gate redis_write_refused) overlapping
                            (boot 2)))).
Proof.
  apply (remote_server_leaves_cache redis_write_refused 2 overlapping).
  split; intros; split; reflexivity.
Defined.

(** The same token on another route has a key of its own. *)
Example other_route_other_key :
  generateCacheKey order_request "tok-1"
  ≠ generateCacheKey refund_request "tok-1".
Proof. by vm_compute. Qed.

(** A handler that does assign [res.body] and [res.headers] is replayed
    with them. *)
Example assigned_properties_are_replayed :
  (λ a, (a.1, res_statusCode a.2, header_calls a.2, sent_body a.2))
    <$> answered
          (serve lru_gate
             [Arrive 1 order_request;
              Finish 1 (mkHandled order_request
                          [Status 201; AssignBody (Some "{ok}");
                           AssignHeaders (Some {[ "Location" := "/orders/7" ]})]
                          (Some "{ok}"));
              Arrive 2 order_request] (boot 2))
  = [(1, 201%Z, [], None);
     (2, 201%Z,
      [SetAll (Some {[ "Location" := "/orders/7" ]}); SetOne "X-Cache" "HIT"],
      Some (Some "{ok}"))].
Proof. reflexivity. Qed.
